(** * Wheaty: verification of the PWA icon generator [generate_icons.py]

    The script renders a square RGBA icon with Pillow.  The development
    below embeds [create_icon] as a program in a state-and-exception
    monad over a store of image objects, so that the aliasing between the
    name [img] and the drawing context [draw] is part of the model.

    Conventions.
    - Python [int] is [Z]; [//] is [Z.div] (both floor).
    - Python [float] is IEEE binary64.  Where the rounding of a product
      changes what [int(...)] returns at some size (the products by
      0.7071 and by 0.7: 90 * 0.7 is just below 63 and 10000 * 0.7071
      just below 7071), the model rounds: module [Double] is binary64
      multiplication over [Z], correctly rounded to 53 bits, ties to
      even.  The other float expressions (the gradient, size * 0.23,
      size * 0.15, size * 0.08) are modelled by exact rationals [Q] with
      [int] the truncation towards zero.  Module [Binary64] writes every
      float expression of the script with the kernel's binary64 numbers;
      [binary64_colours], [binary64_geometry] and [binary64_products]
      check that their truncated results are those of the model.
    - An image object is a record of its dimensions and its pixels in
      row-major order; the store is a list of objects and a reference is
      a position in it.
    - Pillow is not part of the script.  Module [PIL] states what the
      calls of the script do in Pillow: the size check of [Image.new],
      the clipping of colour tuples in [getink], the integer blend of
      [ImagingAlphaComposite], and the binding of an [ImageDraw.Draw]
      context to the image object it was created for.  How ellipses and
      lines are rasterised is left open (class [PIL.Rasterizer]).
    - [main] runs in a world of image objects, files by path and
      printed lines.  [os.makedirs] and the opening of a file by
      [Image.save] are stated for the paths [main] uses; a PNG file is
      modelled by the image it encodes. *)

From Stdlib Require Import ZArith QArith Qround Lia Ascii PrimFloat FloatOps SpecFloat Uint63.
From stdpp Require Import base tactics option list list_numbers strings pretty gmap.

Local Open Scope Z_scope.

(** ** Numbers *)

(** Python's [int(f)] for a float [f]: truncation towards zero. *)
Definition int (q : Q) : Z := Z.quot (Qnum q) (Z.pos (Qden q)).

(** Binary64 numbers as mantissa and exponent: the value is
    mant * 2^expo.  Exponent range and special values are left out: the
    script multiplies integers by constants below 1. *)
Module Double.

Record double := Double { mant : Z; expo : Z }.

(** The integer nearest to n / d, the even one of two equally near, for
    n >= 0 and d > 0. *)
Definition nearest_even (n d : Z) : Z :=
  let q := n / d in
  let r := n mod d in
  if 2 * r <? d then q
  else if d <? 2 * r then q + 1
  else if Z.even q then q else q + 1.

(** n * 2^e rounded to 53 significant bits. *)
Definition round (n e : Z) : double :=
  let s := Z.log2 (Z.abs n) + 1 - 53 in
  if s <=? 0 then Double n e
  else Double (Z.sgn n * nearest_even (Z.abs n) (2 ^ s)) (e + s).

(** [float(k)]. *)
Definition of_int (k : Z) : double := round k 0.

(** [a * b]. *)
Definition mul (a b : double) : double := round (mant a * mant b) (expo a + expo b).

(** The decimal literal n / d (positive, below 2^52), as the parser
    rounds it. *)
Definition literal (n d : Z) : double :=
  let t0 := 52 + Z.log2 d - Z.log2 n in
  let t := if n * 2 ^ t0 <? d * 2 ^ 52 then t0 + 1 else t0 in
  Double (nearest_even (n * 2 ^ t) d) (- t).

(** [int(a)]: truncation towards zero. *)
Definition to_int (a : double) : Z :=
  if 0 <=? expo a then mant a * 2 ^ expo a else Z.quot (mant a) (2 ^ (- expo a)).

End Double.

(** [int(k * c)] for an integer [k] and a float [c]. *)
Definition times (k : Z) (c : Double.double) : Z :=
  Double.to_int (Double.mul (Double.of_int k) c).

(** [range(n)]. *)
Definition range (n : Z) : list Z := seqZ 0 n.

(** ** Pixels and image objects *)

Record rgba := RGBA { red : Z; green : Z; blue : Z; alpha : Z }.

Global Instance rgba_eq_dec : EqDecision rgba.
Proof. solve_decision. Defined.

Global Instance rgba_inhabited : Inhabited rgba := populate (RGBA 0 0 0 0).

Record image := Image { im_width : Z; im_height : Z; im_data : list rgba }.

Global Instance image_eq_dec : EqDecision image.
Proof. solve_decision. Defined.

(** Position of pixel (x, y) in the row-major pixel data. *)
Definition offset (im : image) (x y : Z) : nat := Z.to_nat (y * im_width im + x).

Definition in_image (im : image) (x y : Z) : bool :=
  (0 <=? x) && (x <? im_width im) && (0 <=? y) && (y <? im_height im).

(** [im.getpixel((x, y))] for coordinates inside the image. *)
Definition pixel (im : image) (x y : Z) : option rgba :=
  if in_image im x y then im_data im !! offset im x y else None.

(** ** The store and the monad of the script *)

Inductive exn :=
  | ValueError      (* raised by Pillow on a bad argument *)
  | IndexError      (* raised by putpixel outside the image *)
  | DanglingRef.    (* a reference to no object: cannot happen in Python *)

Global Instance exn_eq_dec : EqDecision exn.
Proof. solve_decision. Defined.

(** A reference is a position in the store. *)
Abbreviation ref := nat (only parsing).
Abbreviation heap := (list image) (only parsing).

Definition M (A : Type) : Type := heap -> exn + A * heap.

Definition ret {A} (a : A) : M A := fun h => inr (a, h).

Definition bind {A B} (m : M A) (k : A -> M B) : M B :=
  fun h => match m h with
           | inl e => inl e
           | inr (a, h') => k a h'
           end.

Definition raise {A} (e : exn) : M A := fun _ => inl e.

Declare Scope py_scope.
Delimit Scope py_scope with py.
Notation "x <- m ;; k" := (bind m (fun x => k))
  (at level 100, m at next level, right associativity) : py_scope.
Notation "m ;; k" := (bind m (fun _ => k))
  (at level 100, right associativity) : py_scope.

(** A new object is placed at the end of the store. *)
Definition alloc (im : image) : M ref := fun h => inr (length h, h ++ [im]).

Definition load (r : ref) : M image :=
  fun h => match h !! r with
           | Some im => inr (im, h)
           | None => inl DanglingRef
           end.

Definition store (r : ref) (im : image) : M unit :=
  fun h => match h !! r with
           | Some _ => inr (tt, <[r := im]> h)
           | None => inl DanglingRef
           end.

(** [for a in l: body(a)]. *)
Fixpoint for_each {A} (l : list A) (body : A -> M unit) : M unit :=
  match l with
  | [] => ret tt
  | a :: l' => (body a ;; for_each l' body)%py
  end.

(** ** Pillow *)

Module PIL.

(** [CLIP8]: how Pillow's [getink] turns the integers of a colour tuple
    into 8-bit channels. *)
Definition clip8 (v : Z) : Z := if v <=? 0 then 0 else if v <? 256 then v else 255.

Definition getink (c : Z * Z * Z * Z) : rgba :=
  let '(r, g, b, a) := c in RGBA (clip8 r) (clip8 g) (clip8 b) (clip8 a).

(** [Image.new('RGBA', (w, h), color)]: [_check_size] rejects negative
    dimensions and nothing else. *)
Definition new (size : Z * Z) (color : Z * Z * Z * Z) : M ref :=
  let '(w, h) := size in
  if (w <? 0) || (h <? 0) then raise ValueError
  else alloc (Image w h (replicate (Z.to_nat (w * h)) (getink color))).

(** [im.putpixel((x, y), value)]: negative coordinates count from the
    far edge, anything still outside raises [IndexError]. *)
Definition putpixel (r : ref) (xy : Z * Z) (value : Z * Z * Z * Z) : M unit :=
  (im <- load r ;;
   let '(x, y) := xy in
   let x := if x <? 0 then im_width im + x else x in
   let y := if y <? 0 then im_height im + y else y in
   if in_image im x y
   then store r (Image (im_width im) (im_height im)
                       (<[offset im x y := getink value]> (im_data im)))
   else raise IndexError)%py.

(** [SHIFTFORDIV255]. *)
Definition shift_for_div255 (a : Z) : Z := Z.shiftr (Z.shiftr a 8 + a) 8.

Definition precision_bits : Z := 7.

(** One pixel of [ImagingAlphaComposite]: [src] over [dst]. *)
Definition composite_pixel (dst src : rgba) : rgba :=
  if alpha src =? 0 then dst
  else
    let blend := alpha dst * (255 - alpha src) in
    let outa255 := alpha src * 255 + blend in
    let coef1 := alpha src * 255 * 255 * Z.shiftl 1 precision_bits / outa255 in
    let coef2 := 255 * Z.shiftl 1 precision_bits - coef1 in
    let half := Z.shiftl 128 precision_bits in
    let chan (s d : Z) :=
      Z.shiftr (shift_for_div255 (s * coef1 + d * coef2 + half)) precision_bits in
    RGBA (chan (red src) (red dst)) (chan (green src) (green dst))
         (chan (blue src) (blue dst)) (shift_for_div255 (outa255 + 128)).

(** [Image.alpha_composite(im1, im2)]: a new image; the arguments are
    left as they are.  Images of different sizes are refused. *)
Definition alpha_composite (r1 r2 : ref) : M ref :=
  (im1 <- load r1 ;;
   im2 <- load r2 ;;
   if (im_width im1 =? im_width im2) && (im_height im1 =? im_height im2)
   then alloc (Image (im_width im1) (im_height im1)
                     (zip_with composite_pixel (im_data im1) (im_data im2)))
   else raise ValueError)%py.

(** The two rasterisers of [ImageDraw]: how an ellipse inscribed in a
    bounding box and a one-pixel line change the pixels of an image.
    The script's properties hold for whatever they paint. *)
Class Rasterizer := {
  fill_ellipse : Z * Z * Z * Z -> rgba -> image -> image;
  stroke_line : Z * Z * Z * Z -> rgba -> image -> image
}.

(** [ImageDraw.Draw(im)]: the context keeps the image object it was
    made for and paints on that object from then on. *)
Record draw := Draw_on { target : ref }.

Definition Draw (r : ref) : M draw :=
  (_ <- load r ;; ret (Draw_on r))%py.

Section Drawing.
Context `{Rasterizer}.

(** [draw.ellipse([x0, y0, x1, y1], fill=...)]. *)
Definition ellipse (d : draw) (box : Z * Z * Z * Z) (fill : Z * Z * Z * Z) : M unit :=
    (im <- load (target d) ;; store (target d) (fill_ellipse box (getink fill) im))%py.

(** [draw.line([x0, y0, x1, y1], fill=..., width=1)]. *)
Definition line (d : draw) (xy : Z * Z * Z * Z) (fill : Z * Z * Z * Z) : M unit :=
    (im <- load (target d) ;; store (target d) (stroke_line xy (getink fill) im))%py.
End Drawing.

End PIL.

(** ** The script *)

Definition gold : Z * Z * Z * Z := (255, 215, 0, 255).

(** Lines 18-21: the colour tuple handed to [putpixel] at (x, y).  The
    loops run for positive sizes only, so the divisor is never 0. *)
Definition gradient_color (size x y : Z) : Z * Z * Z * Z :=
  let gradient := (inject_Z (x + y) / inject_Z (2 * size))%Q in
  let r := int (102 + gradient * 118) in
  let g := int (126 + gradient * 46) in
  let b := int (234 + gradient * 24) in
  (r, g, b, 255).

(** Lines 29, 30, 36, 37: the geometry derived from [size]. *)
Definition center (size : Z) : Z := size / 2.
Definition sun_radius (size : Z) : Z := int (inject_Z size * 0.23).
Definition ray_length (size : Z) : Z := int (inject_Z size * 0.15).
Definition ray_width (size : Z) : Z := Z.max 2 (size / 64).

(** Lines 41-89: the end points (start_x, start_y, end_x, end_y) of ray
    [i], with the defaults of lines 41-44 ([twice k] is
    int(k * 0.7 * 0.7)) and the eight branches.  (The local [angle] of
    line 40 is computed and never read.) *)
Definition ray (size i : Z) : Z * Z * Z * Z :=
  let center := center size in
  let sun_radius := sun_radius size in
  let ray_length := ray_length size in
  let twice (k : Z) :=
    Double.to_int (Double.mul (Double.mul (Double.of_int k) (Double.literal 7 10))
                              (Double.literal 7 10)) in
  let start_x := center + twice (sun_radius + 10) in
  let start_y := center + twice (sun_radius + 10) in
  let end_x := center + twice (sun_radius + ray_length) in
  let end_y := center + twice (sun_radius + ray_length) in
  let cos_a := Double.literal 7071 10000 in
  let sin_a := Double.literal 7071 10000 in
  if i =? 0 then
    (center + sun_radius + 10, center, center + sun_radius + ray_length, center)
  else if i =? 1 then
    (center + times (sun_radius + 10) cos_a,
     center + times (sun_radius + 10) sin_a,
     center + times (sun_radius + ray_length) cos_a,
     center + times (sun_radius + ray_length) sin_a)
  else if i =? 2 then
    (center, center + sun_radius + 10, center, center + sun_radius + ray_length)
  else if i =? 3 then
    (center - times (sun_radius + 10) cos_a,
     center + times (sun_radius + 10) sin_a,
     center - times (sun_radius + ray_length) cos_a,
     center + times (sun_radius + ray_length) sin_a)
  else if i =? 4 then
    (center - sun_radius - 10, center, center - sun_radius - ray_length, center)
  else if i =? 5 then
    (center - times (sun_radius + 10) cos_a,
     center - times (sun_radius + 10) sin_a,
     center - times (sun_radius + ray_length) cos_a,
     center - times (sun_radius + ray_length) sin_a)
  else if i =? 6 then
    (center, center - sun_radius - 10, center, center - sun_radius - ray_length)
  else if i =? 7 then
    (center + times (sun_radius + 10) cos_a,
     center - times (sun_radius + 10) sin_a,
     center + times (sun_radius + ray_length) cos_a,
     center - times (sun_radius + ray_length) sin_a)
  else (start_x, start_y, end_x, end_y).

(** The rays of the loop [for i in range(8)], in order. *)
Definition rays (size : Z) : list (Z * Z * Z * Z) := ray size <$> range 8.

(** Lines 15-22: the gradient loops over the object [img]. *)
Definition gradient_background (size : Z) (img : ref) : M unit :=
  for_each (range size) (fun y =>
    for_each (range size) (fun x =>
      PIL.putpixel img (x, y) (gradient_color size x y))).

Section Script.
Context `{PIL.Rasterizer}.

(** Lines 39-94: the ray loops over the context [draw]. *)
Definition sun_rays (size : Z) (draw : PIL.draw) : M unit :=
  for_each (range 8) (fun i =>
    let '(start_x, start_y, end_x, end_y) := ray size i in
    for_each (range (ray_width size)) (fun w =>
      PIL.line draw (start_x + w, start_y + w, end_x + w, end_y + w) gold)).

(** [create_icon(size)].  The second binding of [img] shadows the
    first, as the assignment of line 26 rebinds the name; [draw] was made
    for the first object. *)
Definition create_icon (size : Z) : M ref :=
  (img <- PIL.new (size, size) (0, 0, 0, 0) ;;
   draw <- PIL.Draw img ;;
   gradient_background size img ;;
   glass_overlay <- PIL.new (size, size) (255, 255, 255, 25) ;;
   img <- PIL.alpha_composite img glass_overlay ;;
   let center := size / 2 in
   let sun_radius := int (inject_Z size * 0.23) in
   PIL.ellipse draw (center - sun_radius, center - sun_radius,
                     center + sun_radius, center + sun_radius) gold ;;
   sun_rays size draw ;;
   let highlight_size := int (inject_Z size * 0.08) in
   let highlight_x := center - times sun_radius (Double.literal 7 10) in
   let highlight_y := center - times sun_radius (Double.literal 7 10) in
   PIL.ellipse draw (highlight_x, highlight_y,
                     highlight_x + highlight_size, highlight_y + highlight_size)
               (255, 255, 255, 80) ;;
   ret img)%py.

End Script.

(** Line 112: the sizes [main] renders. *)
Definition sizes : list Z := [72; 96; 128; 144; 152; 192; 384; 512].

(** What a caller holds after [m] returned a reference: the object it
    refers to, or the exception that came out. *)
Definition returned (m : M ref) (h : heap) : exn + image :=
  match m h with
  | inl e => inl e
  | inr (r, h') =>
      match h' !! r with
      | Some im => inr im
      | None => inl DanglingRef
      end
  end.

(** ** Closed forms of what the script computes *)

(** The value of the local variable [gradient] at pixel (x, y). *)
Definition gradient (size x y : Z) : Q := inject_Z (x + y) / inject_Z (2 * size).

(** The canvas once both gradient loops have run. *)
Definition gradient_data (size : Z) : list rgba :=
  (fun i => PIL.getink (gradient_color size (i `mod` size) (i / size)))
    <$> seqZ 0 (size * size).

Definition gradient_image (size : Z) : image := Image size size (gradient_data size).

(** The object bound to [glass_overlay]. *)
Definition overlay_image (size : Z) : image :=
  Image size size (replicate (Z.to_nat (size * size)) (RGBA 255 255 255 25)).

(** The result of [Image.alpha_composite(img, glass_overlay)]. *)
Definition background (size : Z) : image :=
  Image size size
    (zip_with PIL.composite_pixel (gradient_data size) (im_data (overlay_image size))).

(** One stroke of a ray: the segment moved by (w, w). *)
Definition shift (seg : Z * Z * Z * Z) (w : Z) : Z * Z * Z * Z :=
  let '(start_x, start_y, end_x, end_y) := seg in
  (start_x + w, start_y + w, end_x + w, end_y + w).

(** Every [draw.line] call of the ray loops, in order. *)
Definition strokes (size : Z) : list (Z * Z * Z * Z) :=
  rays size ≫= (fun seg => shift seg <$> range (ray_width size)).

(** The bounding boxes of the two ellipses. *)
Definition sun_box (size : Z) : Z * Z * Z * Z :=
  (center size - sun_radius size, center size - sun_radius size,
   center size + sun_radius size, center size + sun_radius size).

Definition highlight_box (size : Z) : Z * Z * Z * Z :=
  let highlight_size := int (inject_Z size * 0.08) in
  let highlight_x := center size - times (sun_radius size) (Double.literal 7 10) in
  let highlight_y := center size - times (sun_radius size) (Double.literal 7 10) in
  (highlight_x, highlight_y, highlight_x + highlight_size, highlight_y + highlight_size).

(** The object the context [draw] paints on, after the last drawing
    call: sun, rays and highlight over the gradient canvas. *)
Definition painted `{PIL.Rasterizer} (size : Z) : image :=
  let sun := PIL.fill_ellipse (sun_box size) (PIL.getink gold) (gradient_image size) in
  let rayed := foldl (fun im s => PIL.stroke_line s (PIL.getink gold) im) sun (strokes size) in
  PIL.fill_ellipse (highlight_box size) (PIL.getink (255, 255, 255, 80)) rayed.

(** Lines 11-22 on their own: the canvas before the overlay. *)
Definition canvas_after_gradient (size : Z) : M ref :=
  (img <- PIL.new (size, size) (0, 0, 0, 0) ;;
   draw <- PIL.Draw img ;;
   gradient_background size img ;;
   ret img)%py.

(** The gradient fill followed by the glass-overlay composite alone:
    [create_icon] without any drawing call. *)
Definition render_background (size : Z) : M ref :=
  (img <- PIL.new (size, size) (0, 0, 0, 0) ;;
   gradient_background size img ;;
   glass_overlay <- PIL.new (size, size) (255, 255, 255, 25) ;;
   PIL.alpha_composite img glass_overlay)%py.

(** The coordinates visited by the two gradient loops, in order. *)
Definition scan (size : Z) : list (Z * Z) :=
  range size ≫= (fun y => (fun x => (x, y)) <$> range size).

(** Every drawing call has this shape: read the object, write it back
    changed. *)
Definition paint (r : ref) (f : image -> image) : M unit :=
  (im <- load r ;; store r (f im))%py.

(** ** Readings of the specification *)

(** The colour the specification interpolates at (x, y), channel by
    channel, with nothing done about values above 255. *)
Definition interpolated (size x y : Z) : rgba :=
  let g := gradient size x y in
  RGBA (Qfloor (102 + g * 118)) (Qfloor (126 + g * 46)) (Qfloor (234 + g * 24)) 255.

(** The same with the blue channel saturated, which is what the canvas
    holds. *)
Definition interpolated_clipped (size x y : Z) : rgba :=
  let g := gradient size x y in
  RGBA (Qfloor (102 + g * 118)) (Qfloor (126 + g * 46))
       (Z.min 255 (Qfloor (234 + g * 24))) 255.

(** The blue component of the tuple computed at lines 18-21. *)
Definition computed_blue (size x y : Z) : Z := (gradient_color size x y).1.2.

(** Unit steps of the eight compass directions in the order of the ray
    loop: right, bottom-right, bottom, ... (y grows downwards). *)
Definition compass : list (Z * Z) :=
  [(1, 0); (1, 1); (0, 1); (-1, 1); (-1, 0); (-1, -1); (0, -1); (1, -1)].

Definition seg_start (seg : Z * Z * Z * Z) : Z * Z := (seg.1.1.1, seg.1.1.2).
Definition seg_end (seg : Z * Z * Z * Z) : Z * Z := (seg.1.2, seg.2).




(** The ray of the specification in direction [dir]: from distance
    sunRadius + 10 to distance sunRadius + rayLength, where the diagonal
    directions scale the distance by the constant [diag], as the
    script does ([int(distance * diag)]), and the axis directions take
    it as it is. *)
Definition ray_towards (diag : Double.double) (size : Z) (dir : Z * Z) : Z * Z * Z * Z :=
  let sunRadius := Qfloor (0.23 * inject_Z size) in
  let rayLength := Qfloor (0.15 * inject_Z size) in
  let reach (distance : Z) :=
    if (dir.1 =? 0) || (dir.2 =? 0) then distance else times distance diag in
  (center size + dir.1 * reach (sunRadius + 10),
   center size + dir.2 * reach (sunRadius + 10),
   center size + dir.1 * reach (sunRadius + rayLength),
   center size + dir.2 * reach (sunRadius + rayLength)).

(** ** A rasteriser to run the script with *)

Module Scanline.

Definition plot (x y : Z) (ink : rgba) (im : image) : image :=
  if in_image im x y
  then Image (im_width im) (im_height im) (<[offset im x y := ink]> (im_data im))
  else im.

(** Inside the ellipse inscribed in the box, in doubled coordinates. *)
Definition inside (box : Z * Z * Z * Z) (x y : Z) : bool :=
  let '(x0, y0, x1, y1) := box in
  let a := x1 - x0 in
  let b := y1 - y0 in
  (x0 <=? x) && (x <=? x1) && (y0 <=? y) && (y <=? y1) &&
  ((2 * x - x0 - x1) ^ 2 * b ^ 2 + (2 * y - y0 - y1) ^ 2 * a ^ 2 <=? a ^ 2 * b ^ 2).

Definition fill_ellipse (box : Z * Z * Z * Z) (ink : rgba) (im : image) : image :=
  Image (im_width im) (im_height im)
    (imap (fun i p =>
             if inside box (Z.of_nat i `mod` im_width im) (Z.of_nat i / im_width im)
             then ink else p)
          (im_data im)).

(** The points of a segment, one per step along its longer side. *)
Definition stroke_line (xy : Z * Z * Z * Z) (ink : rgba) (im : image) : image :=
  let '(x0, y0, x1, y1) := xy in
  let n := Z.max (Z.abs (x1 - x0)) (Z.abs (y1 - y0)) in
  foldl (fun im k => plot (x0 + (2 * k * (x1 - x0) + n) / (2 * n))
                          (y0 + (2 * k * (y1 - y0) + n) / (2 * n)) ink im)
        im (range (n + 1)).

Definition rasterizer : PIL.Rasterizer :=
  {| PIL.fill_ellipse := fill_ellipse; PIL.stroke_line := stroke_line |}.

End Scanline.

(** ** The float expressions of the script in IEEE binary64 *)

Module Binary64.

(** [float(z)] for a small non-negative integer. *)
Definition of_int (z : Z) : float := PrimFloat.of_uint63 (Uint63.of_Z z).

(** The decimal literal n/d, as the parser rounds it. *)
Definition literal (n d : Z) : float := PrimFloat.div (of_int n) (of_int d).

(** [int(f)]: the mantissa shifted by the exponent, which truncates. *)
Definition to_int (f : float) : Z :=
  match Prim2SF f with
  | S754_finite s m e => let v := Z.shiftl (Z.pos m) e in if s then - v else v
  | _ => 0
  end.

Definition scaled (z : Z) (n d : Z) : Z := to_int (PrimFloat.mul (of_int z) (literal n d)).

Definition channel (base slope size s : Z) : Z :=
  let gradient := PrimFloat.div (of_int s) (of_int (2 * size)) in
  to_int (PrimFloat.add (of_int base) (PrimFloat.mul gradient (of_int slope))).

(** The three channels at every value of x + y, against lines 19-21 of
    the rational model. *)
Definition colours_agree (size : Z) : bool :=
  forallb (fun s =>
             let '(r, g, b, _) := gradient_color size s 0 in
             (channel 102 118 size s =? r) && (channel 126 46 size s =? g)
             && (channel 234 24 size s =? b))
          (range (2 * size - 1)).

(** int(z * c * c), as in lines 41-44. *)
Definition scaled_twice (z : Z) (n d : Z) : Z :=
  to_int (PrimFloat.mul (PrimFloat.mul (of_int z) (literal n d)) (literal n d)).

Definition twice (k : Z) : Z :=
  Double.to_int (Double.mul (Double.mul (Double.of_int k) (Double.literal 7 10))
                            (Double.literal 7 10)).

(** Lines 30, 36, 41-44, 56-59 and 97-99. *)
Definition geometry_agrees (size : Z) : bool :=
  let r := sun_radius size in
  let l := ray_length size in
  (scaled size 23 100 =? r) && (scaled size 15 100 =? l)
  && (scaled (r + 10) 7071 10000 =? times (r + 10) (Double.literal 7071 10000))
  && (scaled (r + l) 7071 10000 =? times (r + l) (Double.literal 7071 10000))
  && (scaled_twice (r + 10) 7 10 =? twice (r + 10))
  && (scaled_twice (r + l) 7 10 =? twice (r + l))
  && (scaled size 8 100 =? int (inject_Z size * 0.08))
  && (scaled r 7 10 =? times r (Double.literal 7 10)).

(** The rounded products of the model against the kernel's, at one
    integer. *)
Definition products_agree (k : Z) : bool :=
  (scaled k 7071 10000 =? times k (Double.literal 7071 10000))
  && (scaled k 7 10 =? times k (Double.literal 7 10))
  && (scaled_twice k 7 10 =? twice k).

(** Small integers, the neighbourhood of 10000, and integers of every
    bit length up to 62. *)
Definition sample : list Z :=
  seqZ 0 2000 ++ seqZ 9990 20
  ++ ((fun i => 2 ^ i - 1) <$> seqZ 1 62)
  ++ ((fun i => 3 * 2 ^ i + 12345) <$> seqZ 1 60).

End Binary64.

(** ** Further closed forms *)

(** What the overlay of line 25 makes of one channel of an opaque
    pixel: the blend of [ImagingAlphaComposite] at source alpha 25 over
    destination alpha 255, with its coefficients worked out. *)
Definition glass (d : Z) : Z :=
  Z.shiftr (PIL.shift_for_div255 (255 * 3200 + d * 29440 + 16384)) 7.

(** The point reflection of a segment through (c, c). *)
Definition reflect (c : Z) (seg : Z * Z * Z * Z) : Z * Z * Z * Z :=
  let '(start_x, start_y, end_x, end_y) := seg in
  (2 * c - start_x, 2 * c - start_y, 2 * c - end_x, 2 * c - end_y).

(** All four coordinates of a box or segment are pixel positions of a
    canvas of the given size. *)
Definition on_canvas (size : Z) (xy : Z * Z * Z * Z) : Prop :=
  let '(x0, y0, x1, y1) := xy in
  0 <= x0 < size /\ 0 <= y0 < size /\ 0 <= x1 < size /\ 0 <= y1 < size.

Definition ordered (box : Z * Z * Z * Z) : Prop :=
  let '(x0, y0, x1, y1) := box in x0 <= x1 /\ y0 <= y1.

(** ** The driver [main] and its world *)

(** An entry of the file system below the working directory.  A PNG
    file is modelled by the image it encodes. *)
Inductive node :=
  | Dir
  | File (content : image).

Inductive os_error :=
  | FileExistsError
  | FileNotFoundError
  | NotADirectoryError
  | IsADirectoryError.

Inductive failure :=
  | Pillow (e : exn)
  | OS (e : os_error).

(** What [main] acts on: the image objects, the files by path, and the
    lines printed so far. *)
Record world := World {
  objects : list image;
  files : gmap string node;
  stdout : list string
}.

(** A command of the driver leaves a world behind whether it returns or
    raises. *)
Definition W (A : Type) : Type := world -> (failure + A) * world.

Definition wret {A} (a : A) : W A := fun w => (inr a, w).

Definition wbind {A B} (m : W A) (k : A -> W B) : W B :=
  fun w => match m w with
           | (inl e, w') => (inl e, w')
           | (inr a, w') => k a w'
           end.

Declare Scope io_scope.
Delimit Scope io_scope with io.
Notation "x <- m ;; k" := (wbind m (fun x => k))
  (at level 100, m at next level, right associativity) : io_scope.
Notation "m ;; k" := (wbind m (fun _ => k))
  (at level 100, right associativity) : io_scope.

Fixpoint wfor {A} (l : list A) (body : A -> W unit) : W unit :=
  match l with
  | [] => wret tt
  | a :: l' => (body a ;; wfor l' body)%io
  end.

(** A call into the image code: it changes the objects only, and an
    exception leaves them as they were before the call. *)
Definition call {A} (m : M A) : W A :=
  fun w => match m (objects w) with
           | inl e => (inl (Pillow e), w)
           | inr (a, h) => (inr a, World h (files w) (stdout w))
           end.

(** [print(s)]. *)
Definition print (s : string) : W unit :=
  fun w => (inr tt, World (objects w) (files w) (stdout w ++ [s])).

(** [str(n)] for an integer, as f-strings format it. *)
Definition str (n : Z) : string := pretty n.

(** [os.makedirs(name, exist_ok=True)] for a name of one component. *)
Definition makedirs (name : string) : W unit :=
  fun w => match files w !! name with
           | Some Dir => (inr tt, w)
           | Some (File _) => (inl (OS FileExistsError), w)
           | None => (inr tt, World (objects w) (<[name := Dir]> (files w)) (stdout w))
           end.

(** The directory part of a relative path: what precedes its last
    slash, if it has one. *)
Fixpoint dirname (path : string) : option string :=
  match path with
  | EmptyString => None
  | String c rest =>
      match dirname rest with
      | Some d => Some (String c d)
      | None => if Ascii.eqb c "/"%char then Some EmptyString else None
      end
  end.

(** [im.save(path, 'PNG')]: the file is opened for writing, which needs
    its directory and refuses a directory in its place, and then holds
    the image.  (Only images with pixels are saved by [main]; what the
    encoder does with an empty image is not modelled.) *)
Definition save (im : nat) (path : string) : W unit :=
  fun w =>
    match objects w !! im with
    | None => (inl (Pillow DanglingRef), w)
    | Some content =>
        let parent :=
          match dirname path with
          | None => Some Dir
          | Some d => files w !! d
          end in
        match parent with
        | None => (inl (OS FileNotFoundError), w)
        | Some (File _) => (inl (OS NotADirectoryError), w)
        | Some Dir =>
            match files w !! path with
            | Some Dir => (inl (OS IsADirectoryError), w)
            | _ => (inr tt, World (objects w) (<[path := File content]> (files w)) (stdout w))
            end
        end
    end.

(** The path of line 119 and the message of line 117. *)
Definition icon_path (size : Z) : string :=
  "icons/icon-" +:+ str size +:+ "x" +:+ str size +:+ ".png".

Definition creating (size : Z) : string :=
  "Creating icon-" +:+ str size +:+ "x" +:+ str size +:+ ".png...".

Section Driver.
Context `{PIL.Rasterizer}.

(** Lines 116-119: the body of the loop of [main]. *)
Definition generate (size : Z) : W unit :=
  (print (creating size) ;;
   icon <- call (create_icon size) ;;
   save icon (icon_path size))%io.

(** [main()]. *)
Definition main : W unit :=
  (makedirs "icons" ;;
   print "Generating PWA icons..." ;;
   wfor sizes generate ;;
   print "All icons generated successfully!" ;;
   print "Icons saved in the 'icons' directory.")%io.

End Driver.

(** The objects the loop over [l] leaves in the store. *)
Definition allocated `{PIL.Rasterizer} (l : list Z) : list image :=
  l ≫= (fun size => [painted size; overlay_image size; background size]).

(** The files [main] writes, on top of a file system. *)
Definition written (l : list Z) (fs : gmap string node) : gmap string node :=
  foldl (fun fs size => <[icon_path size := File (background size)]> fs) fs l.

(** The lines [main] prints when it completes. *)
Definition transcript : list string :=
  ["Generating PWA icons..."] ++ (creating <$> sizes)
  ++ ["All icons generated successfully!"; "Icons saved in the 'icons' directory."].

(** Three worlds to run [main] in: nothing there yet; a file named
    [icons]; a directory where the third icon should go. *)
Definition empty_world : world := World [] ∅ [].
Definition icons_taken : world := World [] {["icons" := File (Image 0 0 [])]} [].
Definition blocked_128 : world := World [] {[icon_path 128 := Dir]} [].

(** * Proofs *)

(** ** Truncation and floor *)

Lemma int_floor (q : Q) : 0 <= Qnum q -> int q = Qfloor q.
Proof.
  destruct q as [n d]. unfold int, Qfloor. simpl. intros Hn.
  apply Z.quot_div_nonneg; lia.
Qed.

Lemma int_scale (n a : Z) (b : positive) :
  0 <= n -> 0 <= a -> int (inject_Z n * (a # b)) = n * a / Z.pos b.
Proof.
  intros Hn Ha. unfold int. simpl. apply Z.quot_div_nonneg; lia.
Qed.

Lemma floor_scale (n a : Z) (b : positive) :
  Qfloor ((a # b) * inject_Z n) = n * a / Z.pos b.
Proof. unfold Qfloor. simpl. rewrite Pos.mul_1_r. f_equal. lia. Qed.

Lemma int_affine (c k s d : Z) :
  0 < d -> 0 <= s -> 0 <= c -> 0 <= k ->
  int (inject_Z c + inject_Z s / inject_Z d * inject_Z k) = c + s * k / d.
Proof.
  intros Hd Hs Hc Hk. destruct d as [|p|p]; try lia.
  unfold int. cbn.
  rewrite !Pos.mul_1_r, !Z.mul_1_r.
  rewrite Z.quot_div_nonneg by nia.
  rewrite Z.div_add_l by lia. reflexivity.
Qed.

Lemma floor_affine (c k s d : Z) :
  0 < d ->
  Qfloor (inject_Z c + inject_Z s / inject_Z d * inject_Z k) = c + s * k / d.
Proof.
  intros Hd. destruct d as [|p|p]; try lia.
  cbn.
  rewrite !Pos.mul_1_r, !Z.mul_1_r.
  rewrite Z.div_add_l by lia. reflexivity.
Qed.

Lemma sun_radius_floor size : 0 <= size -> sun_radius size = 23 * size / 100.
Proof. intros. unfold sun_radius. rewrite int_scale by lia. f_equal. lia. Qed.

Lemma ray_length_floor size : 0 <= size -> ray_length size = 15 * size / 100.
Proof. intros. unfold ray_length. rewrite int_scale by lia. f_equal. lia. Qed.

(** ** Binary64 rounding *)

Section DoubleFacts.
Import Double.

Lemma nearest_even_error (n d : Z) :
  0 <= n -> 0 < d ->
  0 <= nearest_even n d /\
  - d <= 2 * (nearest_even n d * d - n) <= d.
Proof.
  intros Hn Hd. unfold nearest_even.
  pose proof (Z.div_mod n d ltac:(lia)) as Hdm.
  pose proof (Z.mod_pos_bound n d Hd) as Hr.
  pose proof (Z.div_pos n d Hn Hd) as Hq.
  set (q := n / d) in *. set (r := n mod d) in *.
  assert (Hqd : q * d = n - r) by lia.
  repeat case_match; split; try lia; rewrite ?Z.mul_add_distr_r, Hqd; lia.
Qed.

(** Rounding keeps the value within one part in 2^53. *)
Lemma round_error (n e : Z) :
  0 <= n ->
  exists s, 0 <= s /\ expo (round n e) = e + s /\ 0 <= mant (round n e) /\
    - n <= 2 ^ 53 * (mant (round n e) * 2 ^ s - n) <= n.
Proof.
  intros Hn. unfold round. rewrite Z.abs_eq by exact Hn.
  destruct (Z.log2 n + 1 - 53 <=? 0) eqn:Hs.
  - exists 0. cbn [mant expo]. rewrite Z.mul_1_r. lia.
  - assert (Hpos : 0 < n).
    { destruct (decide (n = 0)) as [->|]; [discriminate Hs|lia]. }
    set (s := Z.log2 n + 1 - 53) in *. assert (0 < s) by lia.
    exists s. cbn [mant expo].
    rewrite Z.sgn_pos, Z.mul_1_l by exact Hpos.
    assert (Hd : 0 < 2 ^ s) by (apply Z.pow_pos_nonneg; lia).
    destruct (nearest_even_error n (2 ^ s) Hn Hd) as [Hm Herr].
    assert (Hlow : 2 ^ 52 * 2 ^ s <= n).
    { rewrite <- Z.pow_add_r by lia. replace (52 + s) with (Z.log2 n) by lia.
      apply Z.log2_spec. exact Hpos. }
    split; [lia|]. split; [lia|]. split; [exact Hm|].
    set (m := nearest_even n (2 ^ s)) in *. set (d := 2 ^ s) in *.
    change (2 ^ 53) with (2 * 2 ^ 52). change (2 ^ 52) with 4503599627370496 in *. lia.
Qed.

(** [int(k * c)] for a float [c] = m / 2^53: the floor of a number
    within two roundings of k * c. *)
Lemma times_error (k m : Z) :
  0 <= k -> 0 <= m ->
  exists K X, times k (Double m (-53)) = X / 2 ^ 53 /\
    0 <= K /\ 0 <= X /\
    - k <= 2 ^ 53 * (K - k) <= k /\
    - (K * m) <= 2 ^ 53 * (X - K * m) <= K * m.
Proof.
  intros Hk Hm. unfold times, of_int, mul.
  destruct (round_error k 0 Hk) as (s1 & Hs1 & He1 & Hm1 & Herr1).
  rewrite Z.add_0_l in He1.
  set (a := round k 0) in *. cbn [mant expo].
  assert (Hprod : 0 <= mant a * m) by lia.
  destruct (round_error (mant a * m) (expo a + -53) Hprod) as (s2 & Hs2 & He2 & Hm2 & Herr2).
  set (b := round (mant a * m) (expo a + -53)) in *.
  exists (mant a * 2 ^ s1), (mant b * 2 ^ s2 * 2 ^ s1).
  assert (Hp1 : 0 < 2 ^ s1) by (apply Z.pow_pos_nonneg; lia).
  assert (Hp2 : 0 < 2 ^ s2) by (apply Z.pow_pos_nonneg; lia).
  split; [|split; [|split; [|split]]].
  - unfold to_int. rewrite He2, He1.
    destruct (0 <=? s1 + -53 + s2) eqn:Hsign.
    + replace (mant b * 2 ^ s2 * 2 ^ s1) with (mant b * 2 ^ (s1 + -53 + s2) * 2 ^ 53).
      * rewrite Z.div_mul by lia. reflexivity.
      * rewrite <- !Z.mul_assoc, <- !Z.pow_add_r by lia. do 2 f_equal. lia.
    + rewrite Z.quot_div_nonneg by (try apply Z.pow_pos_nonneg; lia).
      replace (2 ^ 53) with (2 ^ (- (s1 + -53 + s2)) * (2 ^ s2 * 2 ^ s1)).
      * rewrite <- (Z.mul_assoc (mant b)), Z.div_mul_cancel_r; [reflexivity|..].
        -- apply Z.pow_nonzero; lia.
        -- lia.
      * rewrite <- !Z.pow_add_r by lia. f_equal. lia.
  - apply Z.mul_nonneg_nonneg; lia.
  - repeat apply Z.mul_nonneg_nonneg; lia.
  - exact Herr1.
  - replace (mant a * 2 ^ s1 * m) with (mant a * m * 2 ^ s1) by ring.
    replace (2 ^ 53 * (mant b * 2 ^ s2 * 2 ^ s1 - mant a * m * 2 ^ s1))
      with (2 ^ 53 * (mant b * 2 ^ s2 - mant a * m) * 2 ^ s1) by ring.
    split; nia.
Qed.
End DoubleFacts.

(** The two constants, and what the rounded products are bound by. *)
Lemma cos_a_value : Double.literal 7071 10000 = Double.Double 6368990593027355 (-53).
Proof. reflexivity. Qed.

Lemma seven_tenths_value : Double.literal 7 10 = Double.Double 6305039478318694 (-53).
Proof. reflexivity. Qed.

Lemma times_cos_bounds (k : Z) :
  0 <= k ->
  7070 * k - 10000 < 10000 * times k (Double.literal 7071 10000) <= 7072 * k.
Proof.
  intros Hk. rewrite cos_a_value.
  destruct (times_error k 6368990593027355 Hk ltac:(lia)) as (K & X & -> & HK & HX & H1 & H2).
  change (2 ^ 53) with 9007199254740992 in *.
  Z.div_mod_to_equations. lia.
Qed.

Lemma times_seven_tenths_bounds (k : Z) :
  0 <= k ->
  69 * k - 100 < 100 * times k (Double.literal 7 10) <= 71 * k.
Proof.
  intros Hk. rewrite seven_tenths_value.
  destruct (times_error k 6305039478318694 Hk ltac:(lia)) as (K & X & -> & HK & HX & H1 & H2).
  change (2 ^ 53) with 9007199254740992 in *.
  Z.div_mod_to_equations. lia.
Qed.

(** ** The monad and the store *)

Section MonadLaws.
Context {A B : Type}.

Lemma bind_inr (m : M A) (k : A -> M B) h a h' :
  m h = inr (a, h') -> bind m k h = k a h'.
Proof. unfold bind. intros ->. reflexivity. Qed.

Lemma bind_inl (m : M A) (k : A -> M B) h e :
  m h = inl e -> bind m k h = inl e.
Proof. unfold bind. intros ->. reflexivity. Qed.
End MonadLaws.

Lemma alloc_run im h : alloc im h = inr (length h, h ++ [im]).
Proof. reflexivity. Qed.

Lemma load_run r im h : h !! r = Some im -> load r h = inr (im, h).
Proof. unfold load. intros ->. reflexivity. Qed.

Lemma store_run r im im' h : h !! r = Some im -> store r im' h = inr (tt, <[r := im']> h).
Proof. unfold store. intros ->. reflexivity. Qed.

Section Loops.
Context {A : Type}.

Lemma for_each_ext (l : list A) (f g : A -> M unit) :
  (forall a h, f a h = g a h) -> forall h, for_each l f h = for_each l g h.
Proof.
  intros Hfg. induction l as [|a l IH]; intros h; simpl; [reflexivity|].
  unfold bind. rewrite Hfg. destruct (g a h) as [e|[[] h']]; [reflexivity|apply IH].
Qed.

Lemma for_each_app (l1 l2 : list A) (f : A -> M unit) h :
  for_each (l1 ++ l2) f h = bind (for_each l1 f) (fun _ => for_each l2 f) h.
Proof.
  revert h. induction l1 as [|a l1 IH]; intros h; simpl; [reflexivity|].
  unfold bind at 1 2 3. destruct (f a h) as [e|[[] h']]; [reflexivity|].
  rewrite IH. reflexivity.
Qed.

Lemma for_each_fmap {C} (k : C -> A) (l : list C) (f : A -> M unit) h :
  for_each (k <$> l) f h = for_each l (fun c => f (k c)) h.
Proof.
  revert h. induction l as [|c l IH]; intros h; simpl; [reflexivity|].
  unfold bind. destruct (f (k c) h) as [e|[[] h']]; [reflexivity|apply IH].
Qed.

Lemma for_each_bind {C} (k : C -> list A) (l : list C) (f : A -> M unit) h :
  for_each (l ≫= k) f h = for_each l (fun c => for_each (k c) f) h.
Proof.
  revert h. induction l as [|c l IH]; intros h; simpl; [reflexivity|].
  rewrite for_each_app. unfold bind.
  destruct (for_each (k c) f h) as [e|[[] h']]; [reflexivity|apply IH].
Qed.
End Loops.

Lemma paint_run r f im h : h !! r = Some im -> paint r f h = inr (tt, <[r := f im]> h).
Proof.
  intros Hr. unfold paint. rewrite (bind_inr _ _ _ _ _ (load_run _ _ _ Hr)).
  apply (store_run _ _ _ _ Hr).
Qed.

Lemma for_each_paint {A} (l : list A) (g : A -> image -> image) r im h :
  h !! r = Some im ->
  for_each l (fun a => paint r (g a)) h
  = inr (tt, <[r := foldl (fun im a => g a im) im l]> h).
Proof.
  revert im h. induction l as [|a l IH]; intros im h Hr; cbn [for_each foldl].
  - unfold ret. rewrite list_insert_id by exact Hr. reflexivity.
  - rewrite (bind_inr _ _ _ _ _ (paint_run _ _ _ _ Hr)).
    rewrite (IH (g a im)).
    + rewrite list_insert_insert_eq. reflexivity.
    + apply list_lookup_insert_eq. eapply lookup_lt_Some, Hr.
Qed.

Lemma putpixel_paint r x y c im h :
  h !! r = Some im -> 0 <= x < im_width im -> 0 <= y < im_height im ->
  PIL.putpixel r (x, y) c h
  = paint r (fun im => Image (im_width im) (im_height im)
                             (<[offset im x y := PIL.getink c]> (im_data im))) h.
Proof.
  intros Hr Hx Hy. unfold PIL.putpixel, paint.
  rewrite !(bind_inr _ _ _ _ _ (load_run _ _ _ Hr)).
  replace (x <? 0) with false by lia. replace (y <? 0) with false by lia.
  unfold in_image.
  replace (0 <=? x) with true by lia. replace (x <? im_width im) with true by lia.
  replace (0 <=? y) with true by lia. replace (y <? im_height im) with true by lia.
  reflexivity.
Qed.

Lemma for_each_putpixel (ps : list (Z * Z)) (c : Z * Z -> Z * Z * Z * Z) r w hh d h :
  h !! r = Some (Image w hh d) ->
  Forall (fun p => 0 <= p.1 < w /\ 0 <= p.2 < hh) ps ->
  for_each ps (fun p => PIL.putpixel r p (c p)) h
  = inr (tt, <[r := Image w hh
                 (foldl (fun d p => <[Z.to_nat (p.2 * w + p.1) := PIL.getink (c p)]> d) d ps)]> h).
Proof.
  intros Hr Hps. revert d h Hr.
  induction Hps as [|[x y] ps [Hx Hy] _ IH]; intros d h Hr; cbn [for_each foldl].
  - unfold ret. rewrite list_insert_id by exact Hr. reflexivity.
  - simpl in Hx, Hy.
    erewrite bind_inr; cycle 1.
    { rewrite (putpixel_paint _ _ _ _ _ _ Hr) by (simpl; lia).
      apply paint_run, Hr. }
    rewrite (IH (<[Z.to_nat (y * w + x) := PIL.getink (c (x, y))]> d)).
    + rewrite list_insert_insert_eq. reflexivity.
    + apply list_lookup_insert_eq. eapply lookup_lt_Some, Hr.
Qed.

Section FoldInsert.
Context {A B : Type} (g : A -> nat) (v : A -> B).

Lemma foldl_insert_length (l : list A) (d : list B) :
  length (foldl (fun d a => <[g a := v a]> d) d l) = length d.
Proof.
  revert d. induction l as [|a l IH]; intros d; cbn [foldl]; [reflexivity|].
  rewrite IH. apply length_insert.
Qed.

Lemma foldl_insert_lookup (l : list A) (d : list B) (i : nat) (w : B) :
  (i < length d)%nat ->
  (d !! i = Some w \/ exists a, a ∈ l /\ g a = i) ->
  (forall a, a ∈ l -> g a = i -> v a = w) ->
  foldl (fun d a => <[g a := v a]> d) d l !! i = Some w.
Proof.
  revert d. induction l as [|a l IH]; intros d Hi Hsrc Hval; cbn [foldl].
  - destruct Hsrc as [Hd|(a & Ha & _)]; [exact Hd|]. inversion Ha.
  - apply IH.
    + rewrite length_insert. exact Hi.
    + destruct (decide (g a = i)) as [Heq|Hne].
      * left. rewrite Heq, list_lookup_insert_eq by exact Hi.
        f_equal. apply Hval; [left|exact Heq].
      * rewrite list_lookup_insert_ne by exact Hne.
        destruct Hsrc as [Hd|(a' & Ha' & Hg)]; [left; exact Hd|].
        right. exists a'. split; [|exact Hg].
        apply elem_of_cons in Ha' as [->|Ha']; [contradiction|exact Ha'].
    + intros a' Ha'. apply Hval. right. exact Ha'.
Qed.
End FoldInsert.

Lemma elem_of_scan size x y : (x, y) ∈ scan size <-> 0 <= x < size /\ 0 <= y < size.
Proof.
  unfold scan, range. rewrite list_elem_of_bind. split.
  - intros (y' & Hxy & Hy'). apply list_elem_of_fmap in Hxy as (x' & Heq & Hx').
    inversion Heq; subst. apply elem_of_seqZ in Hy', Hx'. lia.
  - intros [Hx Hy]. exists y. split.
    + apply list_elem_of_fmap. exists x. split; [reflexivity|]. apply elem_of_seqZ. lia.
    + apply elem_of_seqZ. lia.
Qed.

Lemma gradient_data_length size : length (gradient_data size) = Z.to_nat (size * size).
Proof. unfold gradient_data. rewrite length_fmap. apply length_seqZ. Qed.

Lemma gradient_data_lookup size x y :
  0 <= x < size -> 0 <= y < size ->
  gradient_data size !! Z.to_nat (y * size + x) = Some (PIL.getink (gradient_color size x y)).
Proof.
  intros Hx Hy. unfold gradient_data.
  rewrite list_lookup_fmap, lookup_seqZ_lt by nia.
  replace (0 + Z.of_nat (Z.to_nat (y * size + x))) with (x + y * size) by nia.
  cbn [fmap option_fmap option_map].
  rewrite Z.mod_add, Z.div_add, Z.mod_small, Z.div_small by lia.
  reflexivity.
Qed.

Lemma scan_fill size (c0 : rgba) :
  0 <= size ->
  foldl (fun d p => <[Z.to_nat (p.2 * size + p.1)
                       := PIL.getink (gradient_color size p.1 p.2)]> d)
        (replicate (Z.to_nat (size * size)) c0) (scan size)
  = gradient_data size.
Proof.
  intros Hsize. apply list_eq. intros i.
  destruct (decide (i < Z.to_nat (size * size))%nat) as [Hi|Hi].
  - assert (0 < size) by nia.
    pose (x := Z.of_nat i `mod` size). pose (y := Z.of_nat i / size).
    assert (Hxy : Z.of_nat i = y * size + x).
    { unfold x, y. rewrite Z.mul_comm. apply Z.div_mod. lia. }
    assert (Hx : 0 <= x < size) by (apply Z.mod_pos_bound; lia).
    assert (Hy : 0 <= y < size).
    { unfold y. split; [apply Z.div_pos; lia|]. apply Z.div_lt_upper_bound; nia. }
    clearbody x y.
    replace i with (Z.to_nat (y * size + x)) at 2 by lia.
    rewrite gradient_data_lookup by assumption.
    apply (foldl_insert_lookup (fun p => Z.to_nat (p.2 * size + p.1))
             (fun p => PIL.getink (gradient_color size p.1 p.2))).
    + rewrite length_replicate. exact Hi.
    + right. exists (x, y). split; [apply elem_of_scan; lia|simpl; lia].
    + intros [x' y'] Hin Hg. apply elem_of_scan in Hin. simpl in Hg |- *.
      assert (y' = y) by nia. assert (x' = x) by nia. subst. reflexivity.
  - rewrite (proj2 (lookup_ge_None _ _)).
    + symmetry. apply lookup_ge_None. rewrite gradient_data_length. lia.
    + rewrite foldl_insert_length, length_replicate. lia.
Qed.

Lemma gradient_background_run size r c0 h :
  0 <= size ->
  h !! r = Some (Image size size (replicate (Z.to_nat (size * size)) c0)) ->
  gradient_background size r h = inr (tt, <[r := gradient_image size]> h).
Proof.
  intros Hsize Hr. unfold gradient_background.
  transitivity (for_each (scan size)
                  (fun p => PIL.putpixel r p (gradient_color size p.1 p.2)) h).
  - unfold scan. rewrite for_each_bind. apply for_each_ext. intros y h'.
    rewrite for_each_fmap. reflexivity.
  - rewrite (for_each_putpixel _ (fun p => gradient_color size p.1 p.2) _ _ _ _ _ Hr).
    + rewrite scan_fill by exact Hsize. reflexivity.
    + apply Forall_forall. intros [x y] Hin. apply elem_of_scan in Hin. simpl. lia.
Qed.

Lemma lookup_at (h : heap) im l : (h ++ im :: l) !! length h = Some im.
Proof. apply list_lookup_middle. reflexivity. Qed.

Lemma insert_at (h : heap) im im' l : <[length h := im']> (h ++ im :: l) = h ++ im' :: l.
Proof.
  replace (length h) with (length h + 0)%nat by lia.
  rewrite insert_app_r. reflexivity.
Qed.

Lemma new_run size c h :
  0 <= size ->
  PIL.new (size, size) c h
  = inr (length h, h ++ [Image size size (replicate (Z.to_nat (size * size)) (PIL.getink c))]).
Proof.
  intros Hsize. unfold PIL.new. replace (size <? 0) with false by lia. reflexivity.
Qed.

Lemma new_negative size c h : size < 0 -> PIL.new (size, size) c h = inl ValueError.
Proof.
  intros Hsize. unfold PIL.new. replace (size <? 0) with true by lia. reflexivity.
Qed.

Lemma Draw_run r im h : h !! r = Some im -> PIL.Draw r h = inr (PIL.Draw_on r, h).
Proof.
  intros Hr. unfold PIL.Draw. rewrite (bind_inr _ _ _ _ _ (load_run _ _ _ Hr)). reflexivity.
Qed.

Lemma alpha_composite_run r1 r2 w hh d1 d2 h :
  h !! r1 = Some (Image w hh d1) -> h !! r2 = Some (Image w hh d2) ->
  PIL.alpha_composite r1 r2 h
  = inr (length h, h ++ [Image w hh (zip_with PIL.composite_pixel d1 d2)]).
Proof.
  intros H1 H2. unfold PIL.alpha_composite.
  rewrite (bind_inr _ _ _ _ _ (load_run _ _ _ H1)).
  rewrite (bind_inr _ _ _ _ _ (load_run _ _ _ H2)).
  simpl. rewrite !Z.eqb_refl. reflexivity.
Qed.

Lemma canvas_after_gradient_run size h :
  0 <= size ->
  canvas_after_gradient size h = inr (length h, h ++ [gradient_image size]).
Proof.
  intros Hsize. unfold canvas_after_gradient.
  rewrite (bind_inr _ _ _ _ _ (new_run _ _ _ Hsize)).
  rewrite (bind_inr _ _ _ _ _ (Draw_run _ _ _ (lookup_at _ _ _))).
  rewrite (bind_inr _ _ _ _ _ (gradient_background_run _ _ _ _ Hsize (lookup_at _ _ _))).
  rewrite insert_at. reflexivity.
Qed.

Lemma lookup_at1 (h : heap) a b l : (h ++ a :: b :: l) !! S (length h) = Some b.
Proof.
  change (h ++ a :: b :: l) with (h ++ [a] ++ b :: l). rewrite app_assoc.
  replace (S (length h)) with (length (h ++ [a])) by (rewrite length_app; simpl; lia).
  apply lookup_at.
Qed.

Lemma push_run size c h a :
  0 <= size ->
  PIL.new (size, size) c (h ++ [a])
  = inr (S (length h),
         h ++ [a; Image size size (replicate (Z.to_nat (size * size)) (PIL.getink c))]).
Proof.
  intros Hsize. rewrite new_run by exact Hsize.
  rewrite length_app, <- app_assoc. simpl. repeat f_equal. lia.
Qed.

Lemma composite_run size h :
  PIL.alpha_composite (length h) (S (length h))
    (h ++ [gradient_image size; overlay_image size])
  = inr (S (S (length h)),
         h ++ [gradient_image size; overlay_image size; background size]).
Proof.
  rewrite (alpha_composite_run _ _ size size (gradient_data size)
             (im_data (overlay_image size))).
  - rewrite length_app, <- app_assoc. simpl. repeat f_equal. lia.
  - apply lookup_at.
  - apply lookup_at1.
Qed.

Lemma render_background_run size h :
  0 <= size ->
  render_background size h
  = inr (S (S (length h)),
         h ++ [gradient_image size; overlay_image size; background size]).
Proof.
  intros Hsize. unfold render_background.
  rewrite (bind_inr _ _ _ _ _ (new_run _ _ _ Hsize)).
  rewrite (bind_inr _ _ _ _ _ (gradient_background_run _ _ _ _ Hsize (lookup_at _ _ _))).
  rewrite insert_at.
  rewrite (bind_inr _ _ _ _ _ (push_run _ _ _ _ Hsize)).
  apply (composite_run size h).
Qed.

Lemma render_background_negative size h :
  size < 0 -> render_background size h = inl ValueError.
Proof.
  intros Hsize. unfold render_background.
  apply bind_inl, new_negative, Hsize.
Qed.

Section ScriptRuns.
Context `{PIL.Rasterizer}.

Lemma sun_rays_run size d im h :
  h !! PIL.target d = Some im ->
  sun_rays size d h
  = inr (tt, <[PIL.target d :=
                 foldl (fun im s => PIL.stroke_line s (PIL.getink gold) im) im (strokes size)]> h).
Proof.
  intros Hd. unfold sun_rays, strokes, rays.
  rewrite <- (for_each_paint _ (fun s => PIL.stroke_line s (PIL.getink gold)) _ _ _ Hd).
  rewrite for_each_bind, for_each_fmap. apply for_each_ext. intros i h'.
  destruct (ray size i) as [[[start_x start_y] end_x] end_y].
  rewrite for_each_fmap. reflexivity.
Qed.

Lemma create_icon_run size h :
  0 <= size ->
  create_icon size h
  = inr (S (S (length h)), h ++ [painted size; overlay_image size; background size]).
Proof.
  intros Hsize. unfold create_icon.
  rewrite (bind_inr _ _ _ _ _ (new_run _ _ _ Hsize)).
  rewrite (bind_inr _ _ _ _ _ (Draw_run _ _ _ (lookup_at _ _ _))).
  rewrite (bind_inr _ _ _ _ _ (gradient_background_run _ _ _ _ Hsize (lookup_at _ _ _))).
  rewrite insert_at.
  rewrite (bind_inr _ _ _ _ _ (push_run _ _ _ _ Hsize)).
  rewrite (bind_inr _ _ _ _ _ (composite_run size h)).
  cbv zeta.
  erewrite bind_inr; [|apply paint_run, lookup_at].
  cbn [PIL.target]. rewrite insert_at.
  erewrite bind_inr; [|apply sun_rays_run, lookup_at].
  cbn [PIL.target]. rewrite insert_at.
  erewrite bind_inr; [|apply paint_run, lookup_at].
  cbn [PIL.target]. rewrite insert_at. reflexivity.
Qed.

Lemma create_icon_negative size h : size < 0 -> create_icon size h = inl ValueError.
Proof.
  intros Hsize. unfold create_icon. apply bind_inl, new_negative, Hsize.
Qed.

Lemma create_icon_returns size h :
  0 <= size -> returned (create_icon size) h = inr (background size).
Proof.
  intros Hsize. unfold returned. rewrite create_icon_run by exact Hsize.
  change (h ++ [painted size; overlay_image size; background size])
    with (h ++ [painted size] ++ overlay_image size :: [background size]).
  rewrite app_assoc.
  replace (S (S (length h))) with (S (length (h ++ [painted size])))
    by (rewrite length_app; simpl; lia).
  rewrite lookup_at1. reflexivity.
Qed.
End ScriptRuns.

(** ** Pixels of the gradient canvas and of the composite *)

Lemma gradient_color_channels size x y :
  0 < size -> 0 <= x -> 0 <= y ->
  gradient_color size x y
  = (102 + (x + y) * 118 / (2 * size), 126 + (x + y) * 46 / (2 * size),
     234 + (x + y) * 24 / (2 * size), 255).
Proof.
  intros Hsize Hx Hy. unfold gradient_color.
  change 102%Q with (inject_Z 102). change 118%Q with (inject_Z 118).
  change 126%Q with (inject_Z 126). change 46%Q with (inject_Z 46).
  change 234%Q with (inject_Z 234). change 24%Q with (inject_Z 24).
  rewrite !int_affine by lia. reflexivity.
Qed.

Lemma interpolated_channels size x y :
  0 < size ->
  interpolated size x y
  = RGBA (102 + (x + y) * 118 / (2 * size)) (126 + (x + y) * 46 / (2 * size))
         (234 + (x + y) * 24 / (2 * size)) 255.
Proof.
  intros Hsize. unfold interpolated, gradient.
  change 102%Q with (inject_Z 102). change 118%Q with (inject_Z 118).
  change 126%Q with (inject_Z 126). change 46%Q with (inject_Z 46).
  change 234%Q with (inject_Z 234). change 24%Q with (inject_Z 24).
  rewrite !floor_affine by lia. reflexivity.
Qed.

Lemma slope_bounds (s k d : Z) :
  0 < d -> 0 <= k -> 0 <= s < d -> 0 <= s * k / d <= k.
Proof.
  intros Hd Hk Hs. split.
  - apply Z.div_pos; nia.
  - apply Z.div_le_upper_bound; nia.
Qed.

Lemma getink_gradient size x y :
  0 < size -> 0 <= x < size -> 0 <= y < size ->
  PIL.getink (gradient_color size x y) = interpolated_clipped size x y.
Proof.
  intros Hsize Hx Hy.
  unfold interpolated_clipped, gradient.
  change 102%Q with (inject_Z 102). change 118%Q with (inject_Z 118).
  change 126%Q with (inject_Z 126). change 46%Q with (inject_Z 46).
  change 234%Q with (inject_Z 234). change 24%Q with (inject_Z 24).
  rewrite !floor_affine by lia.
  rewrite gradient_color_channels by lia. unfold PIL.getink, PIL.clip8.
  pose proof (slope_bounds (x + y) 118 (2 * size)).
  pose proof (slope_bounds (x + y) 46 (2 * size)).
  pose proof (slope_bounds (x + y) 24 (2 * size)).
  f_equal; repeat case_match; lia.
Qed.

Lemma gradient_range size x y :
  0 < size -> 0 <= x < size -> 0 <= y < size ->
  (0 <= gradient size x y)%Q /\ (gradient size x y < 1)%Q.
Proof.
  intros Hsize Hx Hy. unfold gradient.
  destruct (2 * size) as [|p|p] eqn:Hp; try lia.
  unfold Qle, Qlt. cbn. nia.
Qed.

Lemma pixel_gradient_image size x y :
  0 <= x < size -> 0 <= y < size ->
  pixel (gradient_image size) x y = Some (PIL.getink (gradient_color size x y)).
Proof.
  intros Hx Hy. unfold pixel, in_image, gradient_image, offset. simpl.
  replace (0 <=? x) with true by lia. replace (x <? size) with true by lia.
  replace (0 <=? y) with true by lia. replace (y <? size) with true by lia.
  apply gradient_data_lookup; assumption.
Qed.

Lemma pixel_background size x y :
  0 <= x < size -> 0 <= y < size ->
  pixel (background size) x y
  = Some (PIL.composite_pixel (PIL.getink (gradient_color size x y)) (RGBA 255 255 255 25)).
Proof.
  intros Hx Hy. unfold pixel, in_image, background, offset. simpl.
  replace (0 <=? x) with true by lia. replace (x <? size) with true by lia.
  replace (0 <=? y) with true by lia. replace (y <? size) with true by lia.
  simpl. rewrite lookup_zip_with, gradient_data_lookup by assumption.
  rewrite lookup_replicate_2 by nia. reflexivity.
Qed.

Lemma composite_opaque (dst : rgba) :
  alpha dst = 255 -> alpha (PIL.composite_pixel dst (RGBA 255 255 255 25)) = 255.
Proof. intros Ha. unfold PIL.composite_pixel. simpl. rewrite Ha. reflexivity. Qed.

(** The composite of the overlay over an opaque pixel keeps some blue,
    so it is never gold. *)
Lemma composite_blue_positive (dst : rgba) :
  0 <= blue dst -> alpha dst = 255 ->
  0 < blue (PIL.composite_pixel dst (RGBA 255 255 255 25)).
Proof.
  intros Hb Ha. unfold PIL.composite_pixel. cbn [alpha blue red green].
  rewrite Ha. change (25 =? 0) with false. cbv iota. cbn [blue].
  change (25 * 255 * 255 * Z.shiftl 1 PIL.precision_bits / (25 * 255 + 255 * (255 - 25)))
    with 3200.
  change (255 * Z.shiftl 1 PIL.precision_bits - 3200) with 29440.
  change (Z.shiftl 128 PIL.precision_bits) with 16384.
  unfold PIL.shift_for_div255, PIL.precision_bits.
  rewrite !Z.shiftr_div_pow2 by lia.
  change (2 ^ 8) with 256. change (2 ^ 7) with 128.
  Z.div_mod_to_equations. lia.
Qed.

Lemma getink_gradient_blue size x y :
  0 <= blue (PIL.getink (gradient_color size x y)).
Proof.
  unfold gradient_color, PIL.getink, PIL.clip8. cbn [blue].
  repeat case_match; lia.
Qed.

(** ** What the programs return *)

Lemma canvas_after_gradient_returns size h :
  0 <= size -> returned (canvas_after_gradient size) h = inr (gradient_image size).
Proof.
  intros Hsize. unfold returned. rewrite canvas_after_gradient_run by exact Hsize.
  rewrite lookup_at. reflexivity.
Qed.

Lemma render_background_returns size h :
  0 <= size -> returned (render_background size) h = inr (background size).
Proof.
  intros Hsize. unfold returned. rewrite render_background_run by exact Hsize.
  change (h ++ [gradient_image size; overlay_image size; background size])
    with (h ++ [gradient_image size] ++ overlay_image size :: [background size]).
  rewrite app_assoc.
  replace (S (S (length h))) with (S (length (h ++ [gradient_image size])))
    by (rewrite length_app; simpl; lia).
  rewrite lookup_at1. reflexivity.
Qed.

Lemma background_length size :
  0 <= size -> length (im_data (background size)) = Z.to_nat (size * size).
Proof.
  intros Hsize. unfold background, overlay_image. simpl.
  rewrite length_zip_with, gradient_data_length, length_replicate. lia.
Qed.

Lemma gradient_data_opaque size : Forall (fun p => alpha p = 255) (gradient_data size).
Proof.
  unfold gradient_data. apply Forall_fmap, Forall_forall. intros i _. reflexivity.
Qed.

Lemma background_opaque size : Forall (fun p => alpha p = 255) (im_data (background size)).
Proof.
  apply Forall_lookup. intros i p. unfold background. simpl.
  rewrite lookup_zip_with. intros Hp.
  destruct (gradient_data size !! i) as [d|] eqn:Hd; [|discriminate].
  destruct (replicate _ _ !! i) as [o|] eqn:Ho; [|discriminate].
  apply lookup_replicate in Ho as [-> _]. simpl in Hp. injection Hp as <-.
  apply composite_opaque.
  pose proof (gradient_data_opaque size) as Hall.
  rewrite Forall_lookup in Hall. exact (Hall i d Hd).
Qed.

(** ** Rays *)

Ltac zlia := Z.div_mod_to_equations; lia.




Lemma rays_unfold size :
  rays size = [ray size 0; ray size 1; ray size 2; ray size 3;
               ray size 4; ray size 5; ray size 6; ray size 7].
Proof. reflexivity. Qed.

(** Each ray is stroked [ray_width] times, at least twice. *)
Lemma strokes_length size :
  length (strokes size) = (8 * Z.to_nat (ray_width size))%nat /\ 2 <= ray_width size.
Proof.
  split; [|unfold ray_width; lia].
  unfold strokes. rewrite rays_unfold. cbn [mbind list_bind].
  rewrite !length_app, !length_fmap. unfold range. rewrite length_seqZ. simpl. lia.
Qed.

(** ** The blue channel *)

Lemma computed_blue_channel size x y :
  0 < size -> 0 <= x -> 0 <= y ->
  computed_blue size x y = 234 + (x + y) * 24 / (2 * size).
Proof.
  intros Hsize Hx Hy. unfold computed_blue.
  rewrite gradient_color_channels by assumption. reflexivity.
Qed.

Lemma blue_exceeds size x y :
  0 < size -> 0 <= x -> 0 <= y ->
  255 < computed_blue size x y <-> 11 * size <= 6 * (x + y).
Proof.
  intros Hsize Hx Hy. rewrite computed_blue_channel by assumption.
  split; intros Hb.
  - assert (22 <= (x + y) * 24 / (2 * size)) as Hq by lia.
    pose proof (Z.mul_div_le ((x + y) * 24) (2 * size)). nia.
  - assert (22 <= (x + y) * 24 / (2 * size)); [|lia].
    apply Z.div_le_lower_bound; lia.
Qed.

(** ** Binary64 against the rational model *)

(** The colour depends on x + y only, so one row of sums covers every
    pixel. *)
Lemma gradient_color_sum size x y : gradient_color size x y = gradient_color size (x + y) 0.
Proof. unfold gradient_color. rewrite Z.add_0_r. reflexivity. Qed.

(** For the sizes [main] renders and for every size up to 128, binary64
    gives the channels of the model at every pixel. *)
Lemma binary64_colours : forallb Binary64.colours_agree (sizes ++ seqZ 1 128) = true.
Proof. vm_compute. reflexivity. Qed.

(** So it does for the geometry, at the sizes of [main], at every size
    up to 1024, at 892 and at 26318. *)
Lemma binary64_geometry :
  forallb Binary64.geometry_agrees (892 :: 26318 :: sizes ++ seqZ 1 1024) = true.
Proof. vm_compute. reflexivity. Qed.

(** The products of [Double] are those of the kernel's binary64 on a
    sample of integers. *)
Lemma binary64_products : forallb Binary64.products_agree Binary64.sample = true.
Proof. vm_compute. reflexivity. Qed.

(** Why these products are rounded: at sun radius 90 (size 392) and at
    distance 10000 (size 26318) binary64 falls just below the integer
    that exact arithmetic gives. *)
Lemma rounding_matters :
  times 90 (Double.literal 7 10) = 62 /\ int (inject_Z 90 * 0.7) = 63 /\
  times 10000 (Double.literal 7071 10000) = 7070 /\ int (inject_Z 10000 * 0.7071) = 7071.
Proof. vm_compute. repeat split; reflexivity. Qed.

(** * The claims *)

Section Claims.
Context `{PIL.Rasterizer}.

(** C1 (what the script does at the input where the claim fails).  The
    claim wants the centre pixel (36, 36) of [create_icon(72)] to be gold
    (255, 215, 0, 255).  The returned image holds the gradient under the
    glass overlay there, (170, 159, 247, 255), whatever the rasterisers
    paint: the sun is drawn on the object [draw] was made for, not on
    the one returned. *)
Theorem sun_missing_at_72 h :
  exists im, returned (create_icon 72) h = inr im /\
    pixel im 36 36 = Some (RGBA 170 159 247 255) /\
    pixel im 36 36 <> Some (PIL.getink gold).
Proof.
  exists (background 72). split; [apply create_icon_returns; lia|].
  rewrite pixel_background by lia. split; [reflexivity|discriminate].
Qed.

(** The same at every positive size and every pixel: nothing gold is in
    the returned image. *)
Lemma sun_never_returned size x y h :
  0 < size -> 0 <= x < size -> 0 <= y < size ->
  exists im p, returned (create_icon size) h = inr im /\
    pixel im x y = Some p /\ p <> PIL.getink gold.
Proof.
  intros Hsize Hx Hy. exists (background size). eexists.
  split; [apply create_icon_returns; lia|].
  split; [apply pixel_background; assumption|].
  intros Heq.
  pose proof (composite_blue_positive (PIL.getink (gradient_color size x y))
                (getink_gradient_blue size x y) eq_refl) as Hpos.
  rewrite Heq in Hpos. vm_compute in Hpos. discriminate.
Qed.

(** C2.  For every positive size the image returned by [create_icon] is
    the one produced by the gradient fill followed by the glass-overlay
    composite alone.  The sun, ray and highlight calls change the object
    at the position [draw] was made for, which ends as [painted size];
    the returned reference is another position of the store. *)
Theorem drawing_misses_returned_image size h :
  0 < size ->
  returned (create_icon size) h = returned (render_background size) h /\
  exists r h', create_icon size h = inr (r, h') /\
    h' !! r = Some (background size) /\
    h' !! length h = Some (painted size) /\
    r <> length h.
Proof.
  intros Hsize. split.
  - rewrite create_icon_returns, render_background_returns by lia. reflexivity.
  - exists (S (S (length h))), (h ++ [painted size; overlay_image size; background size]).
    split; [apply create_icon_run; lia|]. split; [|split].
    + pose proof (create_icon_returns size h ltac:(lia)) as Hret.
      unfold returned in Hret. rewrite create_icon_run in Hret by lia.
      destruct (_ !! _) as [im|]; congruence.
    + apply lookup_at.
    + lia.
Qed.

(** C4.  [create_icon] is a function of its size argument alone: two
    calls with the same size return the same pixel data (or raise the
    same exception), whatever the store holds when they start. *)
Theorem create_icon_deterministic size h1 h2 :
  returned (create_icon size) h1 = returned (create_icon size) h2.
Proof.
  destruct (Z_lt_le_dec size 0) as [Hneg|Hpos].
  - unfold returned. rewrite !create_icon_negative by exact Hneg. reflexivity.
  - rewrite !create_icon_returns by exact Hpos. reflexivity.
Qed.

(** C5, amended.  A negative size raises the [ValueError] of
    [Image.new], which nothing in the script catches; size 0 returns
    an image of 0 by 0 pixels. *)
Theorem create_icon_nonpositive size h :
  size <= 0 ->
  returned (create_icon size) h
  = if size <? 0 then inl ValueError else inr (Image 0 0 []).
Proof.
  intros Hsize. destruct (size <? 0) eqn:Hlt.
  - unfold returned. rewrite create_icon_negative by lia. reflexivity.
  - assert (size = 0) as -> by lia. rewrite create_icon_returns by lia. reflexivity.
Qed.

(** C7.  For each of the sizes 72, 96, 128, 144, 152, 192, 384 and 512,
    [create_icon] returns an image whose width and height are that size,
    with one pixel for every position. *)
Theorem supported_sizes_dimensions h :
  Forall (fun size => exists im, returned (create_icon size) h = inr im /\
            im_width im = size /\ im_height im = size /\
            length (im_data im) = Z.to_nat (size * size)) sizes.
Proof.
  apply Forall_forall. intros size Hin. exists (background size).
  assert (0 <= size).
  { unfold sizes in Hin. repeat (apply elem_of_cons in Hin as [->|Hin]; [lia|]).
    inversion Hin. }
  split; [apply create_icon_returns; assumption|].
  split; [reflexivity|]. split; [reflexivity|]. apply background_length. assumption.
Qed.

(** C10.  For every positive size, every pixel of the image returned by
    [create_icon] has alpha 255: the gradient writes alpha 255 and the
    composite of the overlay over an opaque pixel is opaque. *)
Theorem returned_image_opaque size h :
  0 < size ->
  exists im, returned (create_icon size) h = inr im /\
    Forall (fun p => alpha p = 255) (im_data im) /\
    forall x y, 0 <= x < size -> 0 <= y < size ->
      exists p, pixel im x y = Some p /\ alpha p = 255.
Proof.
  intros Hsize. exists (background size).
  split; [apply create_icon_returns; lia|]. split; [apply background_opaque|].
  intros x y Hx Hy. eexists. split; [apply pixel_background; assumption|].
  apply composite_opaque. reflexivity.
Qed.

End Claims.

Lemma drawing_misses_returned_image_witness :
  returned (@create_icon Scanline.rasterizer 2) []
  = returned (render_background 2) [] /\
  exists r h', @create_icon Scanline.rasterizer 2 [] = inr (r, h') /\
    h' !! r = Some (background 2) /\
    h' !! length (@nil image) = Some (@painted Scanline.rasterizer 2) /\
    r <> length (@nil image).
Proof. apply (@drawing_misses_returned_image Scanline.rasterizer 2 []). lia. Defined.

Lemma create_icon_nonpositive_witness :
  returned (@create_icon Scanline.rasterizer (-1)) []
  = if -1 <? 0 then inl ValueError else inr (Image 0 0 []).
Proof. apply (@create_icon_nonpositive Scanline.rasterizer (-1) []). lia. Defined.

(** C5 as stated fails at size 0: the call returns, and the image is
    empty. *)
Lemma create_icon_zero_returns :
  0 <= 0 /\ returned (@create_icon Scanline.rasterizer 0) [] = inr (Image 0 0 []).
Proof. split; [lia|]. rewrite create_icon_returns by lia. reflexivity. Qed.

Lemma returned_image_opaque_witness :
  exists im, returned (@create_icon Scanline.rasterizer 2) [] = inr im /\
    Forall (fun p => alpha p = 255) (im_data im) /\
    forall x y, 0 <= x < 2 -> 0 <= y < 2 ->
      exists p, pixel im x y = Some p /\ alpha p = 255.
Proof. apply (@returned_image_opaque Scanline.rasterizer 2 []). lia. Defined.

(** At each of the sizes left out below some ray has its two ends at the
    same point. *)
Lemma rays_degenerate_sizes :
  forallb (fun size =>
             existsb (fun seg => bool_decide (seg_start seg = seg_end seg)) (rays size))
          (seqZ 61 5 ++ seqZ 67 12) = true.
Proof. vm_compute. reflexivity. Qed.




(** C6, amended.  For every positive size and every pixel (x, y), after
    the gradient loops and before the composite: gradient = (x+y)/(2N)
    lies in [0, 1), red = floor(102 + gradient * 118),
    green = floor(126 + gradient * 46), blue is
    floor(234 + gradient * 24) saturated at 255, alpha = 255; pixel
    (0, 0) is (102, 126, 234, 255). *)
Theorem gradient_step_pixels size x y h :
  0 < size -> 0 <= x < size -> 0 <= y < size ->
  (0 <= gradient size x y)%Q /\ (gradient size x y < 1)%Q /\
  exists im, returned (canvas_after_gradient size) h = inr im /\
    pixel im x y = Some (interpolated_clipped size x y) /\
    pixel im 0 0 = Some (RGBA 102 126 234 255).
Proof.
  intros Hsize Hx Hy.
  destruct (gradient_range size x y Hsize Hx Hy) as [Hlo Hhi].
  split; [exact Hlo|]. split; [exact Hhi|].
  exists (gradient_image size). split; [apply canvas_after_gradient_returns; lia|].
  split.
  - rewrite pixel_gradient_image by assumption. f_equal. apply getink_gradient; assumption.
  - rewrite pixel_gradient_image by lia.
    rewrite gradient_color_channels by lia. simpl.
    rewrite !Z.div_0_l by lia. reflexivity.
Qed.

Lemma gradient_step_pixels_witness :
  (0 <= gradient 72 36 36)%Q /\ (gradient 72 36 36 < 1)%Q /\
  exists im, returned (canvas_after_gradient 72) [] = inr im /\
    pixel im 36 36 = Some (interpolated_clipped 72 36 36) /\
    pixel im 0 0 = Some (RGBA 102 126 234 255).
Proof. apply (gradient_step_pixels 72 36 36 []); lia. Defined.

(** C6 as stated fails at size 12, pixel (11, 11): the formula gives
    blue 256, the canvas holds 255. *)
Lemma gradient_step_unclipped :
  exists im, returned (canvas_after_gradient 12) [] = inr im /\
    pixel im 11 11 = Some (RGBA 210 168 255 255) /\
    interpolated 12 11 11 = RGBA 210 168 256 255 /\
    pixel im 11 11 <> Some (interpolated 12 11 11).
Proof.
  exists (gradient_image 12). split; [apply canvas_after_gradient_returns; lia|].
  split; [reflexivity|]. split; [reflexivity|]. discriminate.
Qed.

(** C8, amended.  For every positive size, sunRadius = floor(0.23 N),
    rayLength = floor(0.15 N), and ray i runs from distance
    sunRadius + 10 to distance sunRadius + rayLength in compass
    direction i, where the four axis directions take the distance as it
    is and the four diagonal ones move int(distance * 0.7071) along each
    axis, the product rounded as binary64 does: the constant of the
    script is 0.7071. *)
Theorem rays_geometry size :
  0 < size ->
  sun_radius size = Qfloor (0.23 * inject_Z size) /\
  ray_length size = Qfloor (0.15 * inject_Z size) /\
  rays size = ray_towards (Double.literal 7071 10000) size <$> compass.
Proof.
  intros Hsize.
  assert (Hr : sun_radius size = Qfloor (0.23 * inject_Z size)).
  { rewrite sun_radius_floor by lia. change 0.23%Q with (23 # 100).
    rewrite floor_scale. f_equal. lia. }
  assert (Hl : ray_length size = Qfloor (0.15 * inject_Z size)).
  { rewrite ray_length_floor by lia. change 0.15%Q with (15 # 100).
    rewrite floor_scale. f_equal. lia. }
  split; [exact Hr|]. split; [exact Hl|].
  rewrite rays_unfold. unfold compass, ray_towards. cbn [fmap list_fmap].
  rewrite <- Hr, <- Hl. unfold ray. cbn [fst snd Z.eqb orb].
  repeat (f_equal; try lia).
Qed.

Lemma rays_geometry_witness :
  sun_radius 512 = Qfloor (0.23 * inject_Z 512) /\
  ray_length 512 = Qfloor (0.15 * inject_Z 512) /\
  rays 512 = ray_towards (Double.literal 7071 10000) 512 <$> compass.
Proof. apply (rays_geometry 512). lia. Defined.

(** C8 as stated fails at size 892: with the constant 0.70711 the
    diagonal rays would end 239 pixels from the centre on each axis, the
    script's end 238 pixels from it. *)
Lemma rays_892_other_constant :
  rays 892 <> ray_towards (Double.literal 70711 100000) 892 <$> compass.
Proof. vm_compute. discriminate. Qed.

(** C9, amended.  For a positive size, some pixel has a computed blue
    above 255 exactly when the size is at least 12, and then the far
    corner (N-1, N-1) is one; the canvas holds the computed value
    saturated at 255. *)
Theorem blue_overflow size :
  0 < size ->
  (12 <= size <->
   exists x y, 0 <= x < size /\ 0 <= y < size /\ 255 < computed_blue size x y) /\
  (12 <= size -> 255 < computed_blue size (size - 1) (size - 1)) /\
  forall x y h, 0 <= x < size -> 0 <= y < size ->
    exists im p, returned (canvas_after_gradient size) h = inr im /\
      pixel im x y = Some p /\ blue p = Z.min 255 (computed_blue size x y).
Proof.
  intros Hsize. split; [split|split].
  - intros H12. exists (size - 1), (size - 1).
    split; [lia|]. split; [lia|]. apply blue_exceeds; lia.
  - intros (x & y & Hx & Hy & Hb). apply blue_exceeds in Hb; lia.
  - intros H12. apply blue_exceeds; lia.
  - intros x y h Hx Hy. exists (gradient_image size). eexists.
    split; [apply canvas_after_gradient_returns; lia|].
    split; [apply pixel_gradient_image; assumption|].
    rewrite computed_blue_channel by lia.
    rewrite gradient_color_channels by lia. unfold PIL.getink, PIL.clip8. cbn [blue].
    pose proof (slope_bounds (x + y) 24 (2 * size)).
    repeat case_match; lia.
Qed.

Lemma blue_overflow_witness :
  (12 <= 12 <->
   exists x y, 0 <= x < 12 /\ 0 <= y < 12 /\ 255 < computed_blue 12 x y) /\
  (12 <= 12 -> 255 < computed_blue 12 (12 - 1) (12 - 1)) /\
  forall x y h, 0 <= x < 12 -> 0 <= y < 12 ->
    exists im p, returned (canvas_after_gradient 12) h = inr im /\
      pixel im x y = Some p /\ blue p = Z.min 255 (computed_blue 12 x y).
Proof. apply (blue_overflow 12). lia. Defined.

(** C9 as stated fails at size 2, where no pixel has a computed blue
    above 255; and at size 12 the far corner, computed 256, is stored as
    255, not as 256 mod 256. *)
Lemma blue_in_range_at_2 :
  2 <= 2 /\
  ~ (exists x y, 0 <= x < 2 /\ 0 <= y < 2 /\ 255 < computed_blue 2 x y) /\
  exists im p, returned (canvas_after_gradient 12) [] = inr im /\
    pixel im 11 11 = Some p /\ computed_blue 12 11 11 = 256 /\
    blue p = 255 /\ blue p <> 256 `mod` 256.
Proof.
  split; [lia|]. split.
  - intros (x & y & Hx & Hy & Hb). apply blue_exceeds in Hb; lia.
  - exists (gradient_image 12), (RGBA 210 168 255 255).
    split; [apply canvas_after_gradient_returns; lia|].
    split; [reflexivity|]. split; [reflexivity|]. split; [reflexivity|]. discriminate.
Qed.

(** * Further properties of [create_icon] *)

Lemma composite_glass (dst : rgba) :
  alpha dst = 255 ->
  PIL.composite_pixel dst (RGBA 255 255 255 25)
  = RGBA (glass (red dst)) (glass (green dst)) (glass (blue dst)) 255.
Proof.
  intros Ha. unfold PIL.composite_pixel. cbn [alpha blue red green].
  rewrite Ha. change (25 =? 0) with false. cbv iota.
  change (25 * 255 * 255 * Z.shiftl 1 PIL.precision_bits / (25 * 255 + 255 * (255 - 25)))
    with 3200.
  change (255 * Z.shiftl 1 PIL.precision_bits - 3200) with 29440.
  change (Z.shiftl 128 PIL.precision_bits) with 16384.
  reflexivity.
Qed.

Lemma glass_div (d : Z) :
  0 <= d ->
  glass d = ((255 * 3200 + d * 29440 + 16384) / 256 + (255 * 3200 + d * 29440 + 16384)) / 256 / 128.
Proof.
  intros Hd. unfold glass, PIL.shift_for_div255.
  rewrite !Z.shiftr_div_pow2 by lia. reflexivity.
Qed.

Lemma glass_bounds (d : Z) : 0 <= d <= 255 -> d <= glass d <= 255.
Proof. intros Hd. rewrite glass_div by lia. zlia. Qed.

Lemma glass_mono (d d' : Z) : 0 <= d <= d' -> glass d <= glass d'.
Proof. intros Hd. rewrite !glass_div by lia. zlia. Qed.

Lemma slope_strict (s k d : Z) : 0 < d -> 0 < k -> 0 <= s < d -> 0 <= s * k / d < k.
Proof.
  intros Hd Hk Hs. split.
  - apply Z.div_pos; nia.
  - apply Z.div_lt_upper_bound; nia.
Qed.

(** X2.  For a positive size and a pixel of the canvas, the tuple of
    lines 19-21 has red in [102, 220), green in [126, 172), blue in
    [234, 258) and alpha 255: the ranges of the comments of those lines,
    upper ends excluded. *)
Theorem gradient_color_ranges size x y :
  0 < size -> 0 <= x < size -> 0 <= y < size ->
  exists r g b, gradient_color size x y = (r, g, b, 255) /\
    102 <= r < 220 /\ 126 <= g < 172 /\ 234 <= b < 258.
Proof.
  intros Hsize Hx Hy. rewrite gradient_color_channels by lia.
  do 3 eexists. split; [reflexivity|].
  pose proof (slope_strict (x + y) 118 (2 * size)).
  pose proof (slope_strict (x + y) 46 (2 * size)).
  pose proof (slope_strict (x + y) 24 (2 * size)).
  lia.
Qed.

Lemma gradient_color_ranges_witness :
  exists r g b, gradient_color 72 71 71 = (r, g, b, 255) /\
    102 <= r < 220 /\ 126 <= g < 172 /\ 234 <= b < 258.
Proof. apply (gradient_color_ranges 72 71 71); lia. Defined.

Lemma getink_gradient_channels size x y :
  0 < size -> 0 <= x < size -> 0 <= y < size ->
  PIL.getink (gradient_color size x y)
  = RGBA (102 + (x + y) * 118 / (2 * size)) (126 + (x + y) * 46 / (2 * size))
         (Z.min 255 (234 + (x + y) * 24 / (2 * size))) 255.
Proof.
  intros Hsize Hx Hy. rewrite gradient_color_channels by lia.
  unfold PIL.getink, PIL.clip8.
  pose proof (slope_strict (x + y) 118 (2 * size)).
  pose proof (slope_strict (x + y) 46 (2 * size)).
  pose proof (slope_strict (x + y) 24 (2 * size)).
  f_equal; repeat case_match; lia.
Qed.

Lemma slope_mono (s s' k d : Z) :
  0 < d -> 0 <= k -> s <= s' -> s * k / d <= s' * k / d.
Proof. intros Hd Hk Hs. apply Z.div_le_mono; nia. Qed.

Section Extras.
Context `{PIL.Rasterizer}.

(** X1.  For a size of 0 or more, [create_icon] adds exactly three
    image objects at the end of the store (the painted canvas, the
    overlay and the composite, which it returns) and leaves every object
    that was there as it was. *)
Theorem create_icon_allocates size h :
  0 <= size ->
  exists r h', create_icon size h = inr (r, h') /\
    r = (length h + 2)%nat /\ length h' = (length h + 3)%nat /\
    forall i im, h !! i = Some im -> h' !! i = Some im.
Proof.
  intros Hsize. do 2 eexists. split; [apply create_icon_run; exact Hsize|].
  split; [lia|]. split.
  - rewrite length_app. simpl. lia.
  - intros i im Hi. apply lookup_app_l_Some, Hi.
Qed.

(** X3.  The returned image is symmetric about its main diagonal: the
    pixels at (x, y) and (y, x) are equal. *)
Theorem returned_image_symmetric size h :
  0 <= size ->
  exists im, returned (create_icon size) h = inr im /\
    forall x y, pixel im x y = pixel im y x.
Proof.
  intros Hsize. exists (background size).
  split; [apply create_icon_returns; exact Hsize|]. intros x y.
  destruct (decide (0 <= x < size /\ 0 <= y < size)) as [[Hx Hy]|Hout].
  - rewrite !pixel_background by assumption.
    rewrite (gradient_color_sum size x y), (gradient_color_sum size y x), (Z.add_comm y x).
    reflexivity.
  - unfold pixel, in_image, background. simpl.
    destruct (0 <=? x) eqn:?, (x <? size) eqn:?, (0 <=? y) eqn:?, (y <? size) eqn:?;
      simpl; try reflexivity; lia.
Qed.

(** X5.  The glass overlay lightens: at every pixel each colour channel
    of the returned image is at least the channel of the gradient canvas
    and at most 255. *)
Theorem overlay_lightens size x y h :
  0 < size -> 0 <= x < size -> 0 <= y < size ->
  exists canvas icon p q,
    returned (canvas_after_gradient size) h = inr canvas /\
    returned (create_icon size) h = inr icon /\
    pixel canvas x y = Some p /\ pixel icon x y = Some q /\
    red p <= red q <= 255 /\ green p <= green q <= 255 /\ blue p <= blue q <= 255.
Proof.
  intros Hsize Hx Hy.
  exists (gradient_image size), (background size). do 2 eexists.
  split; [apply canvas_after_gradient_returns; lia|].
  split; [apply create_icon_returns; lia|].
  split; [apply pixel_gradient_image; assumption|].
  split; [apply pixel_background; assumption|].
  rewrite composite_glass by reflexivity. cbn [red green blue].
  rewrite getink_gradient_channels by assumption. cbn [red green blue].
  pose proof (slope_strict (x + y) 118 (2 * size)).
  pose proof (slope_strict (x + y) 46 (2 * size)).
  pose proof (slope_strict (x + y) 24 (2 * size)).
  repeat split; apply glass_bounds; lia.
Qed.

(** X6.  For a positive size, every pixel of the returned image has red
    in [117, 223], green in [139, 179] and blue in [236, 255]. *)
Theorem returned_channel_ranges size x y h :
  0 < size -> 0 <= x < size -> 0 <= y < size ->
  exists icon q, returned (create_icon size) h = inr icon /\ pixel icon x y = Some q /\
    117 <= red q <= 223 /\ 139 <= green q <= 179 /\ 236 <= blue q <= 255.
Proof.
  intros Hsize Hx Hy. exists (background size). eexists.
  split; [apply create_icon_returns; lia|].
  split; [apply pixel_background; assumption|].
  rewrite composite_glass by reflexivity. cbn [red green blue].
  rewrite getink_gradient_channels by assumption. cbn [red green blue].
  pose proof (slope_strict (x + y) 118 (2 * size)).
  pose proof (slope_strict (x + y) 46 (2 * size)).
  pose proof (slope_strict (x + y) 24 (2 * size)).
  change 117 with (glass 102). change 223 with (glass 219).
  change 139 with (glass 126). change 179 with (glass 171).
  change 236 with (glass 234). change 255 with (glass 255) at 3.
  repeat split; apply glass_mono; lia.
Qed.

(** X4.  In the returned image no channel decreases from a pixel to
    one with a larger x + y: the gradient runs from top-left to
    bottom-right. *)
Theorem returned_image_monotone size x y x' y' h :
  0 < size -> 0 <= x < size -> 0 <= y < size -> 0 <= x' < size -> 0 <= y' < size ->
  x + y <= x' + y' ->
  exists icon p q, returned (create_icon size) h = inr icon /\
    pixel icon x y = Some p /\ pixel icon x' y' = Some q /\
    red p <= red q /\ green p <= green q /\ blue p <= blue q.
Proof.
  intros Hsize Hx Hy Hx' Hy' Hle. exists (background size). do 2 eexists.
  split; [apply create_icon_returns; lia|].
  split; [apply pixel_background; assumption|].
  split; [apply pixel_background; assumption|].
  rewrite !composite_glass by reflexivity. cbn [red green blue].
  rewrite !getink_gradient_channels by assumption. cbn [red green blue].
  pose proof (slope_strict (x + y) 118 (2 * size)).
  pose proof (slope_strict (x + y) 46 (2 * size)).
  pose proof (slope_strict (x + y) 24 (2 * size)).
  pose proof (slope_mono (x + y) (x' + y') 118 (2 * size)).
  pose proof (slope_mono (x + y) (x' + y') 46 (2 * size)).
  pose proof (slope_mono (x + y) (x' + y') 24 (2 * size)).
  repeat split; apply glass_mono; lia.
Qed.
End Extras.

Lemma highlight_size_floor size : 0 <= size -> int (inject_Z size * 0.08) = 8 * size / 100.
Proof. intros. change 0.08%Q with (8 # 100). rewrite int_scale by lia. f_equal. lia. Qed.

(** X7.  From size 1 on, the bounding boxes handed to the two
    [draw.ellipse] calls have their corners in order and on the
    canvas. *)
Theorem ellipse_boxes_on_canvas size :
  1 <= size ->
  ordered (sun_box size) /\ on_canvas size (sun_box size) /\
  ordered (highlight_box size) /\ on_canvas size (highlight_box size).
Proof.
  intros Hsize. unfold sun_box, highlight_box, ordered, on_canvas, center.
  rewrite highlight_size_floor by lia.
  assert (Hr : 0 <= sun_radius size) by (rewrite sun_radius_floor by lia; zlia).
  pose proof (times_seven_tenths_bounds _ Hr) as Hoff.
  set (off := times (sun_radius size) _) in *. clearbody off.
  rewrite sun_radius_floor in * by lia. zlia.
Qed.

Lemma ellipse_boxes_on_canvas_witness :
  ordered (sun_box 72) /\ on_canvas 72 (sun_box 72) /\
  ordered (highlight_box 72) /\ on_canvas 72 (highlight_box 72).
Proof. apply (ellipse_boxes_on_canvas 72). lia. Defined.

(** X9.  For every size, ray i + 4 is ray i reflected through the
    point (center, center), for i = 0, 1, 2, 3. *)
Theorem opposite_rays_mirror size i :
  0 <= i < 4 -> ray size (i + 4) = reflect (center size) (ray size i).
Proof.
  intros Hi.
  assert (i = 0 \/ i = 1 \/ i = 2 \/ i = 3) as [-> | [-> | [-> | ->]]] by lia;
    unfold ray, reflect; cbn [Z.add Z.eqb Pos.eqb Pos.add Pos.succ];
    repeat (f_equal; try lia).
Qed.

Lemma opposite_rays_mirror_witness : ray 72 (1 + 4) = reflect (center 72) (ray 72 1).
Proof. apply (opposite_rays_mirror 72 1). lia. Defined.

(** X10.  The four axis-aligned rays extend outwards by
    ray_length - 10 pixels from their start, not by ray_length: that is
    positive from size 74 on, zero for sizes 67 to 73, and negative (the
    end nearer to the centre than the start) up to size 66. *)
Theorem axis_rays_extent size :
  0 <= size ->
  (let extent := ray_length size - 10 in
   Forall2 (fun dir seg =>
              seg_end seg = ((seg_start seg).1 + extent * dir.1,
                             (seg_start seg).2 + extent * dir.2))
           [(1, 0); (0, 1); (-1, 0); (0, -1)]
           [ray size 0; ray size 2; ray size 4; ray size 6] /\
   (0 < extent <-> 74 <= size) /\ (extent = 0 <-> 67 <= size <= 73) /\
   (extent < 0 <-> size <= 66)).
Proof.
  intros Hsize. cbv zeta. split.
  - unfold ray, seg_start, seg_end. cbn [Z.eqb Pos.eqb fst snd].
    repeat (apply List.Forall2_cons; [cbn [fst snd]; f_equal; lia|]).
    apply List.Forall2_nil.
  - rewrite ray_length_floor by lia. zlia.
Qed.

Lemma axis_rays_extent_witness :
  (let extent := ray_length 72 - 10 in
   Forall2 (fun dir seg =>
              seg_end seg = ((seg_start seg).1 + extent * dir.1,
                             (seg_start seg).2 + extent * dir.2))
           [(1, 0); (0, 1); (-1, 0); (0, -1)]
           [ray 72 0; ray 72 2; ray 72 4; ray 72 6] /\
   (0 < extent <-> 74 <= 72) /\ (extent = 0 <-> 67 <= 72 <= 73) /\
   (extent < 0 <-> 72 <= 66)).
Proof. apply (axis_rays_extent 72). lia. Defined.

(** X8.  From size 41 on, the ray loops make 8 * max(2, size // 64)
    [draw.line] calls and both ends of every one are pixel positions of
    the canvas. *)
Theorem strokes_on_canvas size :
  41 <= size ->
  length (strokes size) = (8 * Z.to_nat (ray_width size))%nat /\
  Forall (on_canvas size) (strokes size).
Proof.
  intros Hsize. split; [apply strokes_length|].
  apply Forall_forall. intros s Hs. unfold strokes in Hs.
  apply list_elem_of_bind in Hs as (seg & Hs & Hseg).
  apply list_elem_of_fmap in Hs as (w & Heq & Hw). subst s.
  unfold range in Hw. apply elem_of_seqZ in Hw.
  assert (Hw' : 0 <= w /\ (w < 2 \/ w < size / 64)) by (unfold ray_width in Hw; lia).
  clear Hw. rewrite rays_unfold in Hseg. unfold ray in Hseg. cbn [Z.eqb Pos.eqb] in Hseg.
  assert (Hk1 : 0 <= sun_radius size + 10)
    by (rewrite sun_radius_floor by lia; zlia).
  assert (Hk2 : 0 <= sun_radius size + ray_length size)
    by (rewrite sun_radius_floor, ray_length_floor by lia; zlia).
  pose proof (times_cos_bounds _ Hk1) as Ha.
  pose proof (times_cos_bounds _ Hk2) as Hb.
  set (a := times (sun_radius size + 10) _) in *.
  set (b := times (sun_radius size + ray_length size) _) in *.
  clearbody a b.
  rewrite sun_radius_floor, ray_length_floor in * by lia.
  unfold center in Hseg.
  repeat (apply elem_of_cons in Hseg as [->|Hseg]; [unfold shift, on_canvas; zlia|]).
  inversion Hseg.
Qed.

Lemma strokes_on_canvas_witness :
  length (strokes 72) = (8 * Z.to_nat (ray_width 72))%nat /\
  Forall (on_canvas 72) (strokes 72).
Proof. apply (strokes_on_canvas 72). lia. Defined.

Lemma create_icon_allocates_witness :
  exists r h', @create_icon Scanline.rasterizer 2 [Image 0 0 []] = inr (r, h') /\
    r = (length [Image 0 0 []] + 2)%nat /\ length h' = (length [Image 0 0 []] + 3)%nat /\
    forall i im, [Image 0 0 []] !! i = Some im -> h' !! i = Some im.
Proof. apply (@create_icon_allocates Scanline.rasterizer 2 [Image 0 0 []]). lia. Defined.

Lemma returned_image_symmetric_witness :
  exists im, returned (@create_icon Scanline.rasterizer 72) [] = inr im /\
    forall x y, pixel im x y = pixel im y x.
Proof. apply (@returned_image_symmetric Scanline.rasterizer 72 []). lia. Defined.

Lemma overlay_lightens_witness :
  exists canvas icon p q,
    returned (canvas_after_gradient 72) [] = inr canvas /\
    returned (@create_icon Scanline.rasterizer 72) [] = inr icon /\
    pixel canvas 36 36 = Some p /\ pixel icon 36 36 = Some q /\
    red p <= red q <= 255 /\ green p <= green q <= 255 /\ blue p <= blue q <= 255.
Proof. apply (@overlay_lightens Scanline.rasterizer 72 36 36 []); lia. Defined.

Lemma returned_channel_ranges_witness :
  exists icon q, returned (@create_icon Scanline.rasterizer 72) [] = inr icon /\
    pixel icon 36 36 = Some q /\
    117 <= red q <= 223 /\ 139 <= green q <= 179 /\ 236 <= blue q <= 255.
Proof. apply (@returned_channel_ranges Scanline.rasterizer 72 36 36 []); lia. Defined.

Lemma returned_image_monotone_witness :
  exists icon p q, returned (@create_icon Scanline.rasterizer 72) [] = inr icon /\
    pixel icon 0 0 = Some p /\ pixel icon 71 71 = Some q /\
    red p <= red q /\ green p <= green q /\ blue p <= blue q.
Proof. apply (@returned_image_monotone Scanline.rasterizer 72 0 0 71 71 []); lia. Defined.

(** * Properties of [main] *)

Lemma wbind_inr {A B} (m : W A) (k : A -> W B) w a w' :
  m w = (inr a, w') -> wbind m k w = k a w'.
Proof. unfold wbind. intros ->. reflexivity. Qed.

Lemma wbind_inl {A B} (m : W A) (k : A -> W B) w e w' :
  m w = (inl e, w') -> wbind m k w = (inl e, w').
Proof. unfold wbind. intros ->. reflexivity. Qed.

Lemma wfor_app {A} (l1 l2 : list A) (body : A -> W unit) w :
  wfor (l1 ++ l2) body w = wbind (wfor l1 body) (fun _ => wfor l2 body) w.
Proof.
  revert w. induction l1 as [|a l1 IH]; intros w; cbn [wfor app]; [reflexivity|].
  unfold wbind at 1 2 3. destruct (body a w) as [[e|[]] w']; [reflexivity|].
  apply IH.
Qed.

(** The eight paths have the directory [icons] and differ from each
    other. *)
Lemma icon_path_dirname size : size ∈ sizes -> dirname (icon_path size) = Some "icons".
Proof.
  unfold sizes. intros Hin.
  repeat (apply elem_of_cons in Hin as [->|Hin]; [vm_compute; reflexivity|]).
  inversion Hin.
Qed.

Lemma icon_path_inj s t : s ∈ sizes -> t ∈ sizes -> icon_path s = icon_path t -> s = t.
Proof.
  unfold sizes. intros Hs Ht.
  repeat (apply elem_of_cons in Hs as [->|Hs]);
    repeat (apply elem_of_cons in Ht as [->|Ht]);
    try (inversion Hs; fail); try (inversion Ht; fail);
    vm_compute; congruence.
Qed.

Lemma icon_path_not_icons size : size ∈ sizes -> icon_path size <> "icons".
Proof.
  intros Hin Heq. apply icon_path_dirname in Hin. rewrite Heq in Hin. discriminate.
Qed.

Lemma sizes_nonneg size : size ∈ sizes -> 0 <= size.
Proof.
  unfold sizes. intros Hin.
  repeat (apply elem_of_cons in Hin as [->|Hin]; [lia|]). inversion Hin.
Qed.

Lemma written_lookup_other l fs p :
  p ∉ icon_path <$> l -> written l fs !! p = fs !! p.
Proof.
  revert fs. induction l as [|s l IH]; intros fs Hp; cbn [written foldl]; [reflexivity|].
  rewrite fmap_cons, not_elem_of_cons in Hp. destruct Hp as [Hne Hp].
  change (written l (<[icon_path s := File (background s)]> fs) !! p = fs !! p).
  rewrite IH by exact Hp. apply lookup_insert_ne. congruence.
Qed.

Lemma written_lookup l fs s :
  s ∈ l -> (forall t, t ∈ l -> icon_path t = icon_path s -> t = s) ->
  written l fs !! icon_path s = Some (File (background s)).
Proof.
  revert fs. induction l as [|t l IH]; intros fs Hin Hinj; [inversion Hin|].
  change (written l (<[icon_path t := File (background t)]> fs) !! icon_path s
          = Some (File (background s))).
  destruct (decide (s ∈ l)) as [Hl|Hl].
  - apply IH; [exact Hl|]. intros u Hu. apply Hinj. right. exact Hu.
  - apply elem_of_cons in Hin as [->|Hin]; [|contradiction].
    rewrite written_lookup_other.
    + apply lookup_insert_eq.
    + intros Hp. apply list_elem_of_fmap in Hp as (u & Heq & Hu).
      assert (u = t) by (apply Hinj; [right; exact Hu|congruence]). subst. contradiction.
Qed.

Section DriverRuns.
Context `{PIL.Rasterizer}.

Lemma call_create_icon size w :
  0 <= size ->
  call (create_icon size) w
  = (inr (S (S (length (objects w)))),
     World (objects w ++ [painted size; overlay_image size; background size])
           (files w) (stdout w)).
Proof.
  intros Hsize. unfold call. rewrite create_icon_run by exact Hsize. reflexivity.
Qed.

Lemma lookup_icon (h : list image) a b c : (h ++ [a; b; c]) !! S (S (length h)) = Some c.
Proof.
  change (h ++ [a; b; c]) with (h ++ [a] ++ b :: [c]). rewrite app_assoc.
  replace (S (S (length h))) with (S (length (h ++ [a])))
    by (rewrite length_app; simpl; lia).
  rewrite lookup_at1. reflexivity.
Qed.

Lemma generate_run size w :
  0 <= size -> dirname (icon_path size) = Some "icons" ->
  files w !! "icons" = Some Dir -> files w !! icon_path size <> Some Dir ->
  generate size w
  = (inr tt, World (objects w ++ allocated [size])
                   (<[icon_path size := File (background size)]> (files w))
                   (stdout w ++ [creating size])).
Proof.
  intros Hsize Hdir Hicons Hfree. unfold generate.
  erewrite wbind_inr by reflexivity.
  erewrite wbind_inr by (apply call_create_icon; exact Hsize).
  unfold save. cbn [objects files stdout print].
  rewrite lookup_icon, Hdir, Hicons.
  destruct (files w !! icon_path size) as [[|c]|]; [contradiction|reflexivity|reflexivity].
Qed.

Lemma generate_blocked size w :
  0 <= size -> dirname (icon_path size) = Some "icons" ->
  files w !! "icons" = Some Dir -> files w !! icon_path size = Some Dir ->
  generate size w
  = (inl (OS IsADirectoryError),
     World (objects w ++ allocated [size]) (files w) (stdout w ++ [creating size])).
Proof.
  intros Hsize Hdir Hicons Hfree. unfold generate.
  erewrite wbind_inr by reflexivity.
  erewrite wbind_inr by (apply call_create_icon; exact Hsize).
  unfold save. cbn [objects files stdout print].
  rewrite lookup_icon, Hdir, Hicons, Hfree. reflexivity.
Qed.

Lemma generate_all l w :
  (forall s, s ∈ l -> s ∈ sizes) ->
  files w !! "icons" = Some Dir ->
  (forall s, s ∈ l -> files w !! icon_path s <> Some Dir) ->
  wfor l generate w
  = (inr tt, World (objects w ++ allocated l) (written l (files w))
                   (stdout w ++ (creating <$> l))).
Proof.
  revert w. induction l as [|s l IH]; intros w Hl Hicons Hfree.
  - cbn. unfold wret. rewrite !app_nil_r. destruct w; reflexivity.
  - cbn [wfor].
    assert (Hs : s ∈ sizes) by (apply Hl; left).
    erewrite wbind_inr; cycle 1.
    { apply generate_run; [apply sizes_nonneg, Hs|apply icon_path_dirname, Hs
                           |exact Hicons|apply Hfree; left]. }
    rewrite IH; cbn [objects files stdout].
    + unfold allocated. cbn [mbind list_bind]. rewrite <- !app_assoc. reflexivity.
    + intros t Ht. apply Hl. right. exact Ht.
    + rewrite lookup_insert_ne by (apply icon_path_not_icons, Hs). exact Hicons.
    + intros t Ht.
      destruct (decide (icon_path s = icon_path t)) as [Heq|Hne].
      * rewrite Heq, lookup_insert_eq. discriminate.
      * rewrite lookup_insert_ne by exact Hne. apply Hfree. right. exact Ht.
Qed.
End DriverRuns.

Section DriverClaims.
Context `{PIL.Rasterizer}.

Lemma makedirs_run w :
  (files w !! "icons" = None \/ files w !! "icons" = Some Dir) ->
  exists fs, makedirs "icons" w = (inr tt, World (objects w) fs (stdout w)) /\
    fs !! "icons" = Some Dir /\ forall p, p <> "icons" -> fs !! p = files w !! p.
Proof.
  intros [Hnone|Hdir]; unfold makedirs.
  - rewrite Hnone. eexists. split; [reflexivity|]. split.
    + apply lookup_insert_eq.
    + intros p Hp. apply lookup_insert_ne. congruence.
  - rewrite Hdir. exists (files w). destruct w. split; [reflexivity|]. split; [exact Hdir|].
    reflexivity.
Qed.

Lemma main_run w :
  (files w !! "icons" = None \/ files w !! "icons" = Some Dir) ->
  (forall s, s ∈ sizes -> files w !! icon_path s <> Some Dir) ->
  exists fs, fs !! "icons" = Some Dir /\
    (forall p, p <> "icons" -> fs !! p = files w !! p) /\
    main w = (inr tt, World (objects w ++ allocated sizes) (written sizes fs)
                            (stdout w ++ transcript)).
Proof.
  intros Hicons Hfree.
  destruct (makedirs_run w Hicons) as (fs & Hmk & Hdir & Hsame).
  exists fs. split; [exact Hdir|]. split; [exact Hsame|].
  unfold main.
  erewrite wbind_inr by exact Hmk.
  erewrite wbind_inr by reflexivity.
  erewrite wbind_inr; cycle 1.
  { apply generate_all; cbn [objects files stdout].
    - intros s Hs. exact Hs.
    - exact Hdir.
    - intros s Hs. rewrite Hsame by (apply icon_path_not_icons, Hs). apply Hfree, Hs. }
  erewrite wbind_inr by reflexivity.
  unfold print, transcript. cbn [objects files stdout].
  rewrite <- !app_assoc. reflexivity.
Qed.

(** X11.  If [icons] is absent or a directory and none of the eight
    icon paths is a directory, [main] completes, [icons] is a directory,
    the eleven lines of [transcript] are printed, and for each size of
    line 112 the file [icons/icon-<size>x<size>.png] holds the image
    [create_icon(size)] returns, size by size pixels. *)
Theorem main_writes_icons w :
  (files w !! "icons" = None \/ files w !! "icons" = Some Dir) ->
  (forall s, s ∈ sizes -> files w !! icon_path s <> Some Dir) ->
  exists w', main w = (inr tt, w') /\
    files w' !! "icons" = Some Dir /\
    stdout w' = stdout w ++ transcript /\
    forall s, s ∈ sizes ->
      exists im, files w' !! icon_path s = Some (File im) /\
        returned (create_icon s) (objects w) = inr im /\
        im_width im = s /\ im_height im = s.
Proof.
  intros Hicons Hfree.
  destruct (main_run w Hicons Hfree) as (fs & Hdir & Hsame & Hmain).
  eexists. split; [exact Hmain|]. cbn [objects files stdout].
  split; [|split; [reflexivity|]].
  - rewrite written_lookup_other; [exact Hdir|].
    intros Hin. apply list_elem_of_fmap in Hin as (s & Heq & Hs).
    symmetry in Heq. exact (icon_path_not_icons s Hs Heq).
  - intros s Hs. exists (background s).
    split; [|split; [apply create_icon_returns, sizes_nonneg, Hs|split; reflexivity]].
    apply written_lookup; [exact Hs|].
    intros t Ht Heq. apply icon_path_inj; assumption.
Qed.

(** X12.  Under the same conditions [main] leaves every path other
    than [icons] and the eight icon paths as it was. *)
Theorem main_keeps_other_files w p :
  (files w !! "icons" = None \/ files w !! "icons" = Some Dir) ->
  (forall s, s ∈ sizes -> files w !! icon_path s <> Some Dir) ->
  p <> "icons" -> p ∉ icon_path <$> sizes ->
  exists w', main w = (inr tt, w') /\ files w' !! p = files w !! p.
Proof.
  intros Hicons Hfree Hp Hnot.
  destruct (main_run w Hicons Hfree) as (fs & Hdir & Hsame & Hmain).
  eexists. split; [exact Hmain|]. cbn [files].
  rewrite written_lookup_other by exact Hnot. apply Hsame, Hp.
Qed.

(** X13.  Running [main] a second time succeeds and leaves the files
    exactly as the first run left them; only the transcript is printed
    again. *)
Theorem main_twice w :
  (files w !! "icons" = None \/ files w !! "icons" = Some Dir) ->
  (forall s, s ∈ sizes -> files w !! icon_path s <> Some Dir) ->
  exists w1 w2, main w = (inr tt, w1) /\ main w1 = (inr tt, w2) /\
    files w2 = files w1 /\ stdout w2 = stdout w ++ transcript ++ transcript.
Proof.
  intros Hicons Hfree.
  destruct (main_run w Hicons Hfree) as (fs & Hdir & Hsame & Hmain).
  set (w1 := World (objects w ++ allocated sizes) (written sizes fs)
                   (stdout w ++ transcript)) in *.
  assert (Hicons1 : files w1 !! "icons" = Some Dir).
  { cbn [w1 files]. rewrite written_lookup_other; [exact Hdir|].
    intros Hin. apply list_elem_of_fmap in Hin as (s & Heq & Hs).
    symmetry in Heq. exact (icon_path_not_icons s Hs Heq). }
  assert (Hfile1 : forall s, s ∈ sizes ->
                     files w1 !! icon_path s = Some (File (background s))).
  { intros s Hs. cbn [w1 files]. apply written_lookup; [exact Hs|].
    intros t Ht Heq. apply icon_path_inj; assumption. }
  destruct (main_run w1 (or_intror Hicons1)) as (fs1 & Hdir1 & Hsame1 & Hmain1).
  { intros s Hs. rewrite Hfile1 by exact Hs. discriminate. }
  exists w1. eexists. split; [exact Hmain|]. split; [exact Hmain1|].
  cbn [files stdout]. split.
  - apply map_eq. intros p.
    destruct (decide (p ∈ icon_path <$> sizes)) as [Hin|Hout].
    + apply list_elem_of_fmap in Hin as (s & -> & Hs).
      rewrite Hfile1 by exact Hs. apply written_lookup; [exact Hs|].
      intros t Ht Heq. apply icon_path_inj; assumption.
    + rewrite written_lookup_other by exact Hout.
      destruct (decide (p = "icons")) as [->|Hp].
      * rewrite Hdir1, Hicons1. reflexivity.
      * apply Hsame1, Hp.
  - cbn [w1 stdout]. rewrite <- app_assoc. reflexivity.
Qed.

(** X14.  If a regular file named [icons] exists, [main] raises
    [FileExistsError] from [os.makedirs] before it prints or writes
    anything. *)
Theorem main_icons_is_a_file w content :
  files w !! "icons" = Some (File content) ->
  main w = (inl (OS FileExistsError), w).
Proof.
  intros Hfile. unfold main. apply wbind_inl. unfold makedirs. rewrite Hfile. reflexivity.
Qed.

(** X15.  If the path of one icon is a directory, [main] stops there
    with [IsADirectoryError]: the icons of the earlier sizes have been
    written and stay, the paths of the later sizes are untouched, and
    the last line printed is the one announcing the blocked icon. *)
Theorem main_no_rollback w l1 s l2 :
  sizes = l1 ++ s :: l2 ->
  (files w !! "icons" = None \/ files w !! "icons" = Some Dir) ->
  (forall t, t ∈ l1 -> files w !! icon_path t <> Some Dir) ->
  files w !! icon_path s = Some Dir ->
  exists w', main w = (inl (OS IsADirectoryError), w') /\
    (forall t, t ∈ l1 -> files w' !! icon_path t = Some (File (background t))) /\
    (forall t, t ∈ l2 -> files w' !! icon_path t = files w !! icon_path t) /\
    stdout w' = stdout w ++ ["Generating PWA icons..."] ++ (creating <$> l1 ++ [s]).
Proof.
  intros Hsplit Hicons Hfree Hblocked.
  assert (Hin : forall t, t ∈ l1 ++ s :: l2 -> t ∈ sizes) by (rewrite Hsplit; auto).
  assert (Hnodup : forall t u, t ∈ l1 ++ s :: l2 -> u ∈ l1 ++ s :: l2 ->
                     icon_path t = icon_path u -> t = u).
  { intros t u Ht Hu. apply icon_path_inj; apply Hin; assumption. }
  assert (Hsizes : NoDup (l1 ++ s :: l2)).
  { rewrite <- Hsplit. unfold sizes.
    repeat (apply NoDup_cons_2; [rewrite ?elem_of_cons, elem_of_nil; lia|]).
    apply NoDup_nil_2. }
  apply NoDup_app in Hsizes as (_ & Hdisj & Hrest). apply NoDup_cons in Hrest as [Hs2 _].
  destruct (makedirs_run w Hicons) as (fs & Hmk & Hdir & Hsame).
  assert (Hloop : wfor l1 generate (World (objects w) fs (stdout w ++ ["Generating PWA icons..."]))
          = (inr tt, World (objects w ++ allocated l1) (written l1 fs)
                           ((stdout w ++ ["Generating PWA icons..."]) ++ (creating <$> l1)))).
  { rewrite generate_all; cbn [objects files stdout]; [reflexivity|..].
    - intros t Ht. apply Hin, elem_of_app. left. exact Ht.
    - exact Hdir.
    - intros t Ht. rewrite Hsame; [apply Hfree, Ht|].
      apply icon_path_not_icons, Hin, elem_of_app. left. exact Ht. }
  assert (Hother : forall t, t ∈ s :: l2 -> written l1 fs !! icon_path t = files w !! icon_path t).
  { intros t Ht. rewrite written_lookup_other.
    - apply Hsame, icon_path_not_icons, Hin, elem_of_app. right. exact Ht.
    - intros Hp. apply list_elem_of_fmap in Hp as (u & Heq & Hu).
      assert (t = u).
      { apply Hnodup; [apply elem_of_app; right; exact Ht
                      |apply elem_of_app; left; exact Hu|exact Heq]. }
      subst u. exact (Hdisj t Hu Ht). }
  eexists. split.
  - unfold main.
    erewrite wbind_inr by exact Hmk.
    erewrite wbind_inr by reflexivity.
    apply wbind_inl. rewrite Hsplit, wfor_app.
    unfold print. cbn [objects files stdout].
    erewrite wbind_inr by exact Hloop.
    cbn [wfor]. apply wbind_inl. apply generate_blocked; cbn [objects files stdout].
    + apply sizes_nonneg, Hin, elem_of_app. right. left.
    + apply icon_path_dirname, Hin, elem_of_app. right. left.
    + rewrite written_lookup_other; [exact Hdir|].
      intros Hp. apply list_elem_of_fmap in Hp as (u & Heq & Hu).
      symmetry in Heq. refine (icon_path_not_icons u _ Heq).
      apply Hin, elem_of_app. left. exact Hu.
    + rewrite Hother by left. exact Hblocked.
  - cbn [objects files stdout]. split; [|split].
    + intros t Ht. apply written_lookup; [exact Ht|].
      intros u Hu. apply Hnodup; apply elem_of_app; left; assumption.
    + intros t Ht. apply Hother. right. exact Ht.
    + rewrite fmap_app, <- !app_assoc. reflexivity.
Qed.
End DriverClaims.


Lemma main_writes_icons_witness :
  exists w', @main Scanline.rasterizer empty_world = (inr tt, w') /\
    files w' !! "icons" = Some Dir /\
    stdout w' = stdout empty_world ++ transcript /\
    forall s, s ∈ sizes ->
      exists im, files w' !! icon_path s = Some (File im) /\
        returned (@create_icon Scanline.rasterizer s) (objects empty_world) = inr im /\
        im_width im = s /\ im_height im = s.
Proof.
  apply (@main_writes_icons Scanline.rasterizer empty_world).
  - left. reflexivity.
  - intros s _. discriminate.
Defined.

Lemma main_keeps_other_files_witness :
  exists w', @main Scanline.rasterizer empty_world = (inr tt, w') /\
    files w' !! "manifest.json" = files empty_world !! "manifest.json".
Proof.
  apply (@main_keeps_other_files Scanline.rasterizer empty_world "manifest.json").
  - left. reflexivity.
  - intros s _. discriminate.
  - discriminate.
  - unfold sizes. cbn [fmap list_fmap]. rewrite !elem_of_cons, elem_of_nil.
    vm_compute. intuition discriminate.
Defined.

Lemma main_twice_witness :
  exists w1 w2, @main Scanline.rasterizer empty_world = (inr tt, w1) /\
    @main Scanline.rasterizer w1 = (inr tt, w2) /\
    files w2 = files w1 /\ stdout w2 = stdout empty_world ++ transcript ++ transcript.
Proof.
  apply (@main_twice Scanline.rasterizer empty_world).
  - left. reflexivity.
  - intros s _. discriminate.
Defined.

Lemma main_icons_is_a_file_witness :
  @main Scanline.rasterizer icons_taken = (inl (OS FileExistsError), icons_taken).
Proof.
  apply (@main_icons_is_a_file Scanline.rasterizer icons_taken (Image 0 0 [])).
  reflexivity.
Defined.

Lemma main_no_rollback_witness :
  exists w', @main Scanline.rasterizer blocked_128 = (inl (OS IsADirectoryError), w') /\
    (forall t, t ∈ [72; 96] -> files w' !! icon_path t = Some (File (background t))) /\
    (forall t, t ∈ [144; 152; 192; 384; 512] ->
       files w' !! icon_path t = files blocked_128 !! icon_path t) /\
    stdout w' = stdout blocked_128 ++ ["Generating PWA icons..."]
                ++ (creating <$> [72; 96] ++ [128]).
Proof.
  apply (@main_no_rollback Scanline.rasterizer blocked_128 [72; 96] 128
           [144; 152; 192; 384; 512]).
  - reflexivity.
  - left. reflexivity.
  - intros t Ht. apply elem_of_cons in Ht as [->|Ht]; [vm_compute; discriminate|].
    apply elem_of_cons in Ht as [->|Ht]; [vm_compute; discriminate|]. inversion Ht.
  - reflexivity.
Defined.
